(** * go-flowdock: the messages service (flowdock/messages.go)

    A shallow embedding of the request builders, the stream consumer and the
    content resolver of [flowdock/messages.go], with the properties the
    specification states about them.

    Go strings and byte slices are [string] (a sequence of 8-bit characters),
    Go's [int] is [Z], a nil-able pointer is an [option], and an [error] is
    identified with the text its [Error()] method returns. *)

From Stdlib Require Import ZArith String Ascii List Lia DecimalString.
From Stdlib Require DecimalPos DecimalZ.
From stdpp Require Import base option strings gmap.
Import ListNotations.
Open Scope string_scope.

(** stdpp keeps [simpl] from unfolding string concatenation; the formats and
    paths below are computed with it. *)
#[local] Arguments String.append !s1 s2 : simpl nomatch.

(** ** Go runtime values *)

Definition error := string.

(** The result of a Go call that returns [(T, error)] and whose [T] is only
    looked at when the error is nil. *)
Inductive result (A : Type) : Type :=
| Ok (a : A)
| Err (e : error).
Arguments Ok {A} a.
Arguments Err {A} e.

(** A call either returns its results or unwinds with a panic. *)
Inductive panic_value : Type :=
| NilDereference
| PanicString (msg : string).

Inductive outcome (A : Type) : Type :=
| Returns (a : A)
| Panics (p : panic_value).
Arguments Returns {A} a.
Arguments Panics {A} p.

(** ** fmt.Sprintf, for the verbs this file uses (%v, %s, %d; no flags) *)

Inductive arg : Type :=
| AString (s : string)
| AInt (n : Z).

Definition fmt_d (n : Z) : string := NilZero.string_of_int (Z.to_int n).

Definition arg_type (a : arg) : string :=
  match a with AString _ => "string" | AInt _ => "int" end.

Definition arg_value (a : arg) : string :=
  match a with AString s => s | AInt n => fmt_d n end.

Definition bad_verb (v : ascii) (a : arg) : string :=
  "%!" +:+ String v ("(" +:+ arg_type a +:+ "=" +:+ arg_value a +:+ ")").

Definition format_verb (v : ascii) (a : arg) : string :=
  match v, a with
  | "v"%char, _ => arg_value a
  | "s"%char, AString s => s
  | "d"%char, AInt n => fmt_d n
  | _, _ => bad_verb v a
  end.

Fixpoint extra_args (a : list arg) : string :=
  match a with
  | [] => ""
  | [x] => arg_type x +:+ "=" +:+ arg_value x
  | x :: rest => arg_type x +:+ "=" +:+ arg_value x +:+ ", " +:+ extra_args rest
  end.

Fixpoint Sprintf (format : string) (a : list arg) : string :=
  match format with
  | EmptyString =>
      match a with [] => "" | _ => "%!(EXTRA " +:+ extra_args a +:+ ")" end
  | String "%" EmptyString => "%!(NOVERB)"
  | String "%" (String "%" rest) => String "%" (Sprintf rest a)
  | String "%" (String v rest) =>
      match a with
      | [] => "%!" +:+ String v ("(MISSING)" +:+ Sprintf rest [])
      | x :: a' => format_verb v x +:+ Sprintf rest a'
      end
  | String c rest => String c (Sprintf rest a)
  end.

(** ** time.Duration (nanoseconds) *)

Definition Duration := Z.
Definition Second : Duration := 1000000000%Z.

(** ** Option bundles and their [url] struct tags *)

Module MessagesListOptions.
Record t : Type := mk {
  Event : string;
  Limit : Z;
  SinceID : Z;
  UntilID : Z;
  Tags : list string;
  TagMode : string;
  Search : string;
}.
End MessagesListOptions.

Module MessagesEditOptions.
Record t : Type := mk {
  Content : string;
  Tags : list string;
}.
End MessagesEditOptions.

Module MessagesCreateOptions.
Record t : Type := mk {
  FlowID : string;
  MessageID : Z;
  Event : string;
  Content : string;
  Tags : list string;
  UUID : string;
  ExternalUserName : string;
  Subject : string;
  FromAddress : string;
  Source : string;
}.
End MessagesCreateOptions.

(** What a call site hands to [addOptions] as its [interface{}] argument. *)
Inductive options : Type :=
| ListOptions (o : MessagesListOptions.t)
| EditOptions (o : MessagesEditOptions.t)
| CreateOptions (o : MessagesCreateOptions.t).

(** A struct field as the [url] tag reader sees it: the tag's name, its
    flags, and the field's value. *)
Inductive field_value : Type :=
| FString (s : string)
| FInt (n : Z)
| FStrings (l : list string).

Record url_field : Type := mk_field {
  tag_name : string;
  tag_flags : list string;
  field_val : field_value;
}.

Definition url_fields (o : options) : list url_field :=
  match o with
  | ListOptions o =>
      [ mk_field "event" ["omitempty"] (FString (MessagesListOptions.Event o));
        mk_field "limit" ["omitempty"] (FInt (MessagesListOptions.Limit o));
        mk_field "since_id" ["omitempty"] (FInt (MessagesListOptions.SinceID o));
        mk_field "until_id" ["omitempty"] (FInt (MessagesListOptions.UntilID o));
        mk_field "tags" ["comma"; "omitempty"] (FStrings (MessagesListOptions.Tags o));
        mk_field "tag_mode" ["omitempty"] (FString (MessagesListOptions.TagMode o));
        mk_field "search" ["omitempty"] (FString (MessagesListOptions.Search o)) ]
  | EditOptions o =>
      [ mk_field "content" ["omitempty"] (FString (MessagesEditOptions.Content o));
        mk_field "tags" ["comma"; "omitempty"] (FStrings (MessagesEditOptions.Tags o)) ]
  | CreateOptions o =>
      [ mk_field "flow" ["omitempty"] (FString (MessagesCreateOptions.FlowID o));
        mk_field "message" ["omitempty"] (FInt (MessagesCreateOptions.MessageID o));
        mk_field "event" ["omitempty"] (FString (MessagesCreateOptions.Event o));
        mk_field "content" ["omitempty"] (FString (MessagesCreateOptions.Content o));
        mk_field "tags" ["comma"; "omitempty"] (FStrings (MessagesCreateOptions.Tags o));
        mk_field "uuid" ["omitempty"] (FString (MessagesCreateOptions.UUID o));
        mk_field "external_user_name" ["omitempty"]
          (FString (MessagesCreateOptions.ExternalUserName o));
        mk_field "subject" ["omitempty"] (FString (MessagesCreateOptions.Subject o));
        mk_field "from_address" ["omitempty"] (FString (MessagesCreateOptions.FromAddress o));
        mk_field "source" ["omitempty"] (FString (MessagesCreateOptions.Source o)) ]
  end.

(** ** Message *)

(** Modelled from the spec: the [Time] type is declared outside messages.go;
    "sent is a numeric epoch-millisecond timestamp when present". *)
Definition Time := Z.

Module Message.
Record t : Type := mk {
  ID : option Z;
  FlowID : option string;
  Sent : option Time;
  UserID : option string;
  Event : option string;
  RawContent : option string;
  MessageID : option Z;
  Tags : option (list string);
  UUID : option string;
  ExternalUserName : option string;
  App : option string;
}.
(** [new(Message)]: every pointer field nil. *)
Definition zero : t :=
  mk None None None None None None None None None None None.
End Message.

(** ** The collaborators the service calls

    [Client] (its constructor, [NewRequest], [NewStreamRequest], [Do]) and
    [addOptions] are declared outside messages.go; the service is written
    against them, so they are parameters here. Every call in this file passes
    a nil request body, so [NewRequest] takes the method and the URL text. *)

(** The [v interface{}] argument of [Client.Do]: nil, a [*Message] or a
    [*[]Message]; [Do] may store the decoded response body through it. *)
Inductive target : Type :=
| NoTarget
| IntoMessage
| IntoMessages.

Definition carrier (t : target) : Type :=
  match t with
  | NoTarget => unit
  | IntoMessage => Message.t
  | IntoMessages => list Message.t
  end.

Record Client (Request Response : Type) : Type := mk_Client {
  NewRequest : string -> string -> result Request;
  NewStreamRequest : string -> string -> result Request;
  Do : Request -> forall t : target, carrier t -> option Response * option error * carrier t;
}.
Arguments NewRequest {Request Response} c method urlStr.
Arguments NewStreamRequest {Request Response} c method urlStr.
Arguments Do {Request Response} c req t v.

(** [eventsource.New(req, retry)]: the handle of the event-stream client. *)
Record EventSource (Request : Type) : Type := eventsource_New {
  es_request : Request;
  es_retry : Duration;
}.
Arguments eventsource_New {Request} es_request es_retry.
Arguments es_request {Request} e.
Arguments es_retry {Request} e.

(** The calls an operation makes to its collaborators, in program order.
    [call_Do] is the HTTP round trip; opening the event source and starting
    the goroutine that reads it are the network activity of [Stream]. *)
Inductive call (Request : Type) : Type :=
| call_addOptions (s : string) (opt : option options)
| call_NewRequest (method urlStr : string)
| call_NewStreamRequest (method urlStr : string)
| call_Do (req : Request) (t : target)
| call_make_chan
| call_eventsource_New (req : Request) (retry : Duration)
| call_go (es : EventSource Request).
Arguments call_addOptions {Request} s opt.
Arguments call_NewRequest {Request} method urlStr.
Arguments call_NewStreamRequest {Request} method urlStr.
Arguments call_Do {Request} req t.
Arguments call_make_chan {Request}.
Arguments call_eventsource_New {Request} req retry.
Arguments call_go {Request} es.

Definition is_io {Request : Type} (c : call Request) : bool :=
  match c with
  | call_Do _ _ | call_eventsource_New _ _ | call_go _ => true
  | _ => false
  end.

(** The first call a computation makes. *)
Definition first_call {Request A : Type} (m : A * list (call Request)) : option (call Request) :=
  hd_error (snd m).

(** The channel [make(chan Message)] of one [Stream] call. *)
Inductive chan_Message : Type := messageCh.

(** A computation that returns an [A] and records the calls it makes. *)
Definition traced (Request A : Type) : Type := A * list (call Request).

Definition ret {Request A : Type} (a : A) : traced Request A := (a, []).

Definition then_ {Request A B : Type} (m : traced Request A) (k : A -> traced Request B)
  : traced Request B :=
  let '(a, calls) := m in
  let '(b, calls') := k a in
  (b, (calls ++ calls')%list).

Notation "'let*' x := m 'in' k" := (then_ m (fun x => k))
  (at level 10, x name, m at level 100, k at level 200, only parsing).
Notation "'let*' ' p := m 'in' k" := (then_ m (fun x => let 'p := x in k))
  (at level 10, p pattern, m at level 100, k at level 200, only parsing).

Section Service.
Context {Request Response : Type}.
Variable client : Client Request Response.
Variable addOptions : string -> option options -> string * option error.

Definition s_addOptions (s : string) (opt : option options)
  : traced Request (string * option error) :=
  (addOptions s opt, [call_addOptions s opt]).

Definition s_NewRequest (method urlStr : string) : traced Request (result Request) :=
  (NewRequest client method urlStr, [call_NewRequest method urlStr]).

Definition s_NewStreamRequest (method urlStr : string) : traced Request (result Request) :=
  (NewStreamRequest client method urlStr, [call_NewStreamRequest method urlStr]).

Definition s_Do (req : Request) (t : target) (v : carrier t)
  : traced Request (option Response * option error * carrier t) :=
  (Do client req t v, [call_Do req t]).

Definition make_chan : traced Request chan_Message := (messageCh, [call_make_chan]).

Definition s_eventsource_New (req : Request) (retry : Duration)
  : traced Request (EventSource Request) :=
  (eventsource_New req retry, [call_eventsource_New req retry]).

(** [go func() { ... }()]: the goroutine reads [es]; its body is
    [stream_task] below. *)
Definition go (es : EventSource Request) : traced Request unit := (tt, [call_go es]).

Definition MessagesService_Stream (token org flow : string)
  : traced Request (option chan_Message * option (EventSource Request) * option error) :=
  let retryDuration := (3 * Second)%Z in
  let u := Sprintf "flows/%v/%v?access_token=%v" [AString org; AString flow; AString token] in
  let* r := s_NewStreamRequest "GET" u in
  match r with
  | Err err => ret (None, None, Some err)
  | Ok req =>
      let* messageCh := make_chan in
      let* es := s_eventsource_New req retryDuration in
      let* _ := go es in
      ret (Some messageCh, Some es, None)
  end.

Definition MessagesService_List (org flow : string) (opt : option MessagesListOptions.t)
  : traced Request (list Message.t * option Response * option error) :=
  let u := Sprintf "flows/%v/%v/messages" [AString org; AString flow] in
  let* '(u, err) := s_addOptions u (ListOptions <$> opt) in
  match err with
  | Some err => ret ([], None, Some err)
  | None =>
      let* r := s_NewRequest "GET" u in
      match r with
      | Err err => ret ([], None, Some err)
      | Ok req =>
          let* '(resp, err, messages) := s_Do req IntoMessages [] in
          match err with
          | Some err => ret ([], resp, Some err)
          | None => ret (messages, resp, None)
          end
      end
  end.

Definition MessagesService_Get (org flowName : string) (id : Z)
  : traced Request (option Message.t * option Response * option error) :=
  let u := Sprintf "flows/%v/%v/messages/%d" [AString org; AString flowName; AInt id] in
  let* r := s_NewRequest "GET" u in
  match r with
  | Err err => ret (None, None, Some err)
  | Ok req =>
      let* '(resp, err, message) := s_Do req IntoMessage Message.zero in
      match err with
      | Some err => ret (None, resp, Some err)
      | None => ret (Some message, resp, None)
      end
  end.

Definition MessagesService_Edit (org flowName : string) (id : Z)
    (opt : option MessagesEditOptions.t)
  : traced Request (option Response * option error) :=
  let u := Sprintf "/flows/%s/%s/messages/%d" [AString org; AString flowName; AInt id] in
  let* '(u, err) := s_addOptions u (EditOptions <$> opt) in
  match err with
  | Some err => ret (None, Some err)
  | None =>
      let* r := s_NewRequest "PUT" u in
      match r with
      | Err err => ret (None, Some err)
      | Ok req =>
          let* '(resp, err, _) := s_Do req NoTarget tt in
          ret (resp, err)
      end
  end.

Definition MessagesService_Delete (org flowName : string) (id : Z)
  : traced Request (option Response * option error) :=
  let u := Sprintf "/flows/%s/%s/messages/%d" [AString org; AString flowName; AInt id] in
  let* r := s_NewRequest "DELETE" u in
  match r with
  | Err err => ret (None, Some err)
  | Ok req =>
      let* '(resp, err, _) := s_Do req NoTarget tt in
      ret (resp, err)
  end.

(** In [CreateComment] and [Create] the error of [addOptions] is assigned to
    [err] and the next statement assigns [err] again, so it is never read. *)
Definition MessagesService_CreateComment (opt : option MessagesCreateOptions.t)
  : traced Request (option Message.t * option Response * option error) :=
  let u := "comments" in
  let* '(u, _) := s_addOptions u (CreateOptions <$> opt) in
  let* r := s_NewRequest "POST" u in
  match r with
  | Err err => ret (None, None, Some err)
  | Ok req =>
      let* '(resp, err, message) := s_Do req IntoMessage Message.zero in
      match err with
      | Some err => ret (None, resp, Some err)
      | None => ret (Some message, resp, None)
      end
  end.

Definition MessagesService_Create (opt : option MessagesCreateOptions.t)
  : traced Request (option Message.t * option Response * option error) :=
  let u := "messages" in
  let* '(u, _) := s_addOptions u (CreateOptions <$> opt) in
  let* r := s_NewRequest "POST" u in
  match r with
  | Err err => ret (None, None, Some err)
  | Ok req =>
      let* '(resp, err, message) := s_Do req IntoMessage Message.zero in
      match err with
      | Some err => ret (None, resp, Some err)
      | None => ret (Some message, resp, None)
      end
  end.

End Service.

(** ** encoding/json: the syntax of a JSON text

    [json.Unmarshal] first checks that the whole input is one JSON value and
    then stores it. The value is kept as a tree; a string keeps the text between
    its quotes and a number its literal, and a member of an object also keeps
    the source text of its value (what a [json.RawMessage] receives). *)

Module json.

#[local] Set Warnings "-register-all".

Inductive value : Type :=
| Null
| Bool (b : bool)
| Number (lit : string)
| Str (lit : string)
| Array (items : list value)
| Object (members : list (string * string * value)).

Definition code (c : ascii) : N := N_of_ascii c.

Definition between (lo hi : N) (c : ascii) : bool :=
  (lo <=? code c)%N && (code c <=? hi)%N.

Definition is_space (c : ascii) : bool :=
  (code c =? 32)%N || (code c =? 9)%N || (code c =? 13)%N || (code c =? 10)%N.

Definition is_digit (c : ascii) : bool := between 48 57 c.

Definition is_hex (c : ascii) : bool :=
  is_digit c || between 97 102 c || between 65 70 c.

Definition hex_digit (n : N) : ascii :=
  ascii_of_N (if (n <? 10)%N then 48 + n else 87 + n).

(** [strconv.Quote] of the one-character string [string(rune(c))], without
    its double quotes. *)
Definition quote_rune (c : ascii) : string :=
  let n := code c in
  if (n =? 92)%N then "\\"
  else if between 32 126 c then String c ""
  else if between 161 255 c && negb (n =? 173)%N then
    String (ascii_of_N (192 + n / 64)) (String (ascii_of_N (128 + n mod 64)) "")
  else if (n =? 7)%N then "\a"
  else if (n =? 8)%N then "\b"
  else if (n =? 12)%N then "\f"
  else if (n =? 10)%N then "\n"
  else if (n =? 13)%N then "\r"
  else if (n =? 9)%N then "\t"
  else if (n =? 11)%N then "\v"
  else if (n <? 32)%N || (n =? 127)%N then
    "\x" +:+ String (hex_digit (n / 16)) (String (hex_digit (n mod 16)) "")
  else "\u00" +:+ String (hex_digit (n / 16)) (String (hex_digit (n mod 16)) "").

Definition quoteChar (c : ascii) : string :=
  if (code c =? 39)%N then "'\''"
  else if (code c =? 34)%N then String "'" (String c "'")
  else "'" +:+ quote_rune c +:+ "'".

Definition invalid (c : ascii) (context : string) : error :=
  "invalid character " +:+ quoteChar c +:+ " " +:+ context.

Definition unexpected_end : error := "unexpected end of JSON input".

Inductive parsed (A : Type) : Type :=
| Parsed (a : A) (rest : string)
| Failed (e : error)
| OutOfFuel.
Arguments Parsed {A} a rest.
Arguments Failed {A} e.
Arguments OutOfFuel {A}.

Definition map_parsed {A B : Type} (f : A -> B) (p : parsed A) : parsed B :=
  match p with
  | Parsed a rest => Parsed (f a) rest
  | Failed e => Failed e
  | OutOfFuel => OutOfFuel
  end.

Fixpoint skip_space (s : string) : string :=
  match s with
  | String c r => if is_space c then skip_space r else s
  | EmptyString => s
  end.

(** What follows [c] when [s] starts with it. *)
Definition after (c : ascii) (s : string) : option string :=
  match s with
  | String c' r => if Ascii.eqb c' c then Some r else None
  | EmptyString => None
  end.

(** The text of [s] up to where [rest] starts. *)
Definition consumed (s rest : string) : string :=
  substring 0 (String.length s - String.length rest) s.

Definition dquote : ascii := "034".

Definition is_escape (e : ascii) : bool :=
  existsb (Ascii.eqb e) [dquote; "\"; "/"; "b"; "f"; "n"; "r"; "t"]%char.

(** The first of the four characters after [\u] that is not a hexadecimal
    digit. *)
Definition bad_hex (a b c d : ascii) : option ascii :=
  if negb (is_hex a) then Some a
  else if negb (is_hex b) then Some b
  else if negb (is_hex c) then Some c
  else if negb (is_hex d) then Some d
  else None.

(** The body of a string literal, after its opening quote: the text up to the
    closing quote, and what follows the closing quote. *)
Fixpoint string_body (s : string) : parsed string :=
  match s with
  | EmptyString => Failed unexpected_end
  | String c r =>
      if Ascii.eqb c dquote then Parsed EmptyString r
      else if Ascii.eqb c "\" then
        match r with
        | EmptyString => Failed unexpected_end
        | String e r1 =>
            if Ascii.eqb e "u" then
              match r1 with
              | String a (String b (String c' (String d r'))) =>
                  match bad_hex a b c' d with
                  | Some x => Failed (invalid x "in \u hexadecimal character escape")
                  | None =>
                      map_parsed
                        (fun lit => String c (String e (String a (String b (String c'
                                      (String d lit))))))
                        (string_body r')
                  end
              | String a (String b (String c' EmptyString)) =>
                  match bad_hex a b c' "0" with
                  | Some x => Failed (invalid x "in \u hexadecimal character escape")
                  | None => Failed unexpected_end
                  end
              | String a (String b EmptyString) =>
                  match bad_hex a b "0" "0" with
                  | Some x => Failed (invalid x "in \u hexadecimal character escape")
                  | None => Failed unexpected_end
                  end
              | String a EmptyString =>
                  match bad_hex a "0" "0" "0" with
                  | Some x => Failed (invalid x "in \u hexadecimal character escape")
                  | None => Failed unexpected_end
                  end
              | EmptyString => Failed unexpected_end
              end
            else if is_escape e then
              map_parsed (fun lit => String c (String e lit)) (string_body r1)
            else Failed (invalid e "in string escape code")
        end
      else if (code c <? 32)%N then Failed (invalid c "in string literal")
      else map_parsed (String c) (string_body r)
  end.

(** The longest run of digits at the head of [s], and the rest. *)
Fixpoint digits (s : string) : string * string :=
  match s with
  | String c r =>
      if is_digit c then let '(ds, rest) := digits r in (String c ds, rest)
      else (EmptyString, s)
  | EmptyString => (EmptyString, s)
  end.

(** A run of digits that may not be empty; [context] says where. *)
Definition digits1 (context : string) (s : string) : parsed string :=
  match digits s with
  | (EmptyString, EmptyString) => Failed unexpected_end
  | (EmptyString, String c _) => Failed (invalid c context)
  | (ds, rest) => Parsed ds rest
  end.

(** After the integer part and the fraction, [lit]: an optional exponent. *)
Definition number_exponent (lit s : string) : parsed string :=
  match s with
  | String e r =>
      if Ascii.eqb e "e" || Ascii.eqb e "E" then
        let '(sign, r1) :=
          match after "+" r, after "-" r with
          | Some r1, _ => ("+", r1)
          | _, Some r1 => ("-", r1)
          | _, _ => (EmptyString, r)
          end in
        map_parsed (fun ds => lit +:+ String e sign +:+ ds)
          (digits1 "in exponent of numeric literal" r1)
      else Parsed lit s
  | EmptyString => Parsed lit s
  end.

(** After the integer part [lit]: an optional fraction, then the exponent. *)
Definition number_fraction (lit s : string) : parsed string :=
  match after "." s with
  | Some r =>
      match digits1 "after decimal point in numeric literal" r with
      | Parsed ds rest => number_exponent (lit +:+ "." +:+ ds) rest
      | other => other
      end
  | None => number_exponent lit s
  end.

(** A number literal whose first character (a minus sign or a digit) is at
    the head of [s]. *)
Definition number (s : string) : parsed string :=
  let '(sign, s1) :=
    match after "-" s with
    | Some r => ("-", r)
    | None => (EmptyString, s)
    end in
  match s1 with
  | EmptyString => Failed unexpected_end
  | String c r =>
      if Ascii.eqb c "0" then number_fraction (sign +:+ "0") r
      else if is_digit c then
        let '(ds, rest) := digits r in number_fraction (sign +:+ String c ds) rest
      else Failed (invalid c "in numeric literal")
  end.

(** The rest of one of the words true, false and null (its [name]), of which
    [word] is still expected. *)
Fixpoint literal (name : string) (word : string) (s : string) : parsed unit :=
  match word with
  | EmptyString => Parsed tt s
  | String w word' =>
      match s with
      | EmptyString => Failed unexpected_end
      | String c r =>
          if Ascii.eqb c w then literal name word' r
          else Failed (invalid c ("in literal " +:+ name +:+ " (expecting "
                                   +:+ quoteChar w +:+ ")"))
      end
  end.

(** One JSON value at the head of [s], after optional white space. [n]
    bounds the calls below this one; [2 * String.length s + 1] is always
    enough. *)
Fixpoint value_at (n : nat) (s : string) {struct n} : parsed value :=
  match n with
  | O => OutOfFuel
  | S n' =>
      match skip_space s with
      | EmptyString => Failed unexpected_end
      | String c r as s' =>
          if Ascii.eqb c "{" then
            match after "}" (skip_space r) with
            | Some rest => Parsed (Object []) rest
            | None => map_parsed Object (members n' r)
            end
          else if Ascii.eqb c "[" then
            match after "]" (skip_space r) with
            | Some rest => Parsed (Array []) rest
            | None => map_parsed Array (elements n' r)
            end
          else if Ascii.eqb c dquote then map_parsed Str (string_body r)
          else if Ascii.eqb c "t" then
            map_parsed (fun _ => Bool true) (literal "true" "rue" r)
          else if Ascii.eqb c "f" then
            map_parsed (fun _ => Bool false) (literal "false" "alse" r)
          else if Ascii.eqb c "n" then
            map_parsed (fun _ => Null) (literal "null" "ull" r)
          else if Ascii.eqb c "-" || is_digit c then map_parsed Number (number s')
          else Failed (invalid c "looking for beginning of value")
      end
  end

(** The members of an object from its first key on, up to and including the
    closing brace. *)
with members (n : nat) (s : string) {struct n} : parsed (list (string * string * value)) :=
  match n with
  | O => OutOfFuel
  | S n' =>
      match skip_space s with
      | EmptyString => Failed unexpected_end
      | String c r =>
          if negb (Ascii.eqb c dquote) then
            Failed (invalid c "looking for beginning of object key string")
          else
            match string_body r with
            | Failed e => Failed e
            | OutOfFuel => OutOfFuel
            | Parsed key r1 =>
                match skip_space r1 with
                | EmptyString => Failed unexpected_end
                | String c1 r2 =>
                    if negb (Ascii.eqb c1 ":") then Failed (invalid c1 "after object key")
                    else
                      let start := skip_space r2 in
                      match value_at n' start with
                      | Failed e => Failed e
                      | OutOfFuel => OutOfFuel
                      | Parsed v r3 =>
                          let member := (key, consumed start r3, v) in
                          match skip_space r3 with
                          | EmptyString => Failed unexpected_end
                          | String c3 r4 =>
                              if Ascii.eqb c3 "}" then Parsed [member] r4
                              else if Ascii.eqb c3 "," then
                                map_parsed (cons member) (members n' r4)
                              else Failed (invalid c3 "after object key:value pair")
                          end
                      end
                end
            end
      end
  end

(** The elements of an array from its first element on, up to and including
    the closing bracket. *)
with elements (n : nat) (s : string) {struct n} : parsed (list value) :=
  match n with
  | O => OutOfFuel
  | S n' =>
      match value_at n' s with
      | Failed e => Failed e
      | OutOfFuel => OutOfFuel
      | Parsed v r1 =>
          match skip_space r1 with
          | EmptyString => Failed unexpected_end
          | String c r2 =>
              if Ascii.eqb c "]" then Parsed [v] r2
              else if Ascii.eqb c "," then map_parsed (cons v) (elements n' r2)
              else Failed (invalid c "after array element")
          end
      end
  end.

(** [checkValid] and the scan of the value: the whole of [data] is one JSON
    value with optional white space around it. *)
Definition parse (data : string) : result value :=
  match value_at (S (2 * String.length data)) data with
  | Parsed v rest =>
      match skip_space rest with
      | EmptyString => Ok v
      | String c _ => Err (invalid c "after top-level value")
      end
  | Failed e => Err e
  | OutOfFuel => Err "json: out of fuel"
  end.

(** Quotes for JSON texts in examples: every apostrophe stands for a double
    quote. *)
Fixpoint dq (s : string) : string :=
  match s with
  | String "'" r => String dquote (dq r)
  | String c r => String c (dq r)
  | EmptyString => EmptyString
  end.

(** *** Storing a value: strings *)

Definition hex_value (c : ascii) : N :=
  if is_digit c then code c - 48
  else if between 97 102 c then code c - 87
  else code c - 55.

(** [getu4]: the code unit of a [\uXXXX] escape at the head of [s]. *)
Definition getu4 (s : string) : option N :=
  match s with
  | String "\" (String "u" (String a (String b (String c (String d _))))) =>
      if is_hex a && is_hex b && is_hex c && is_hex d then
        Some (4096 * hex_value a + 256 * hex_value b + 16 * hex_value c + hex_value d)%N
      else None
  | _ => None
  end.

Definition byte (n : N) : ascii := ascii_of_N n.

(** [utf8.EncodeRune], for a rune that is not a surrogate. *)
Definition utf8_encode (r : N) : string :=
  if (r <? 128)%N then String (byte r) EmptyString
  else if (r <? 2048)%N then
    String (byte (192 + r / 64)) (String (byte (128 + r mod 64)) EmptyString)
  else if (r <? 65536)%N then
    String (byte (224 + r / 4096))
      (String (byte (128 + (r / 64) mod 64)) (String (byte (128 + r mod 64)) EmptyString))
  else
    String (byte (240 + r / 262144))
      (String (byte (128 + (r / 4096) mod 64))
         (String (byte (128 + (r / 64) mod 64)) (String (byte (128 + r mod 64)) EmptyString))).

(** U+FFFD, which replaces what is not a character. *)
Definition replacement : string := utf8_encode 65533.

(** [utf8.DecodeRune]: the number of bytes after the first one of the
    well-formed UTF-8 sequence at the head of [s]; [None] when there is none. *)
Definition utf8_tail (s : string) : option nat :=
  match s with
  | EmptyString => None
  | String b0 r =>
      let n0 := code b0 in
      if (n0 <? 128)%N then Some 0
      else if between 194 223 b0 then
        match r with
        | String b1 _ => if between 128 191 b1 then Some 1 else None
        | _ => None
        end
      else if between 224 239 b0 then
        match r with
        | String b1 (String b2 _) =>
            let lo := if (n0 =? 224)%N then 160%N else 128%N in
            let hi := if (n0 =? 237)%N then 159%N else 191%N in
            if between lo hi b1 && between 128 191 b2 then Some 2 else None
        | _ => None
        end
      else if between 240 244 b0 then
        match r with
        | String b1 (String b2 (String b3 _)) =>
            let lo := if (n0 =? 240)%N then 144%N else 128%N in
            let hi := if (n0 =? 244)%N then 143%N else 191%N in
            if between lo hi b1 && between 128 191 b2 && between 128 191 b3
            then Some 3 else None
        | _ => None
        end
      else None
  end.

Definition unescape (e : ascii) : ascii :=
  match e with
  | "b" => byte 8
  | "f" => byte 12
  | "n" => byte 10
  | "r" => byte 13
  | "t" => byte 9
  | _ => e
  end%char.

Definition drop (n : nat) (s : string) : string :=
  substring n (String.length s - n) s.

(** What a [\u] escape at the head of [s] stands for, and how many
    characters after its backslash belong to it: a surrogate pair is one
    rune, a lone surrogate is replaced. *)
Definition unicode_escape (s : string) : string * nat :=
  match getu4 s with
  | None => (EmptyString, 0)
  | Some rr =>
      if (55296 <=? rr)%N && (rr <? 57344)%N then
        match getu4 (drop 6 s) with
        | Some rr1 =>
            if (rr <? 56320)%N && (56320 <=? rr1)%N && (rr1 <? 57344)%N then
              (utf8_encode (65536 + (rr - 55296) * 1024 + (rr1 - 56320)), 11)
            else (replacement, 5)
        | None => (replacement, 5)
        end
      else (utf8_encode rr, 5)
  end.

(** [unquote] over the body of a literal. [pending] counts the characters
    ahead that are already accounted for: copied when [copy], else dropped. *)
Fixpoint unquote_loop (pending : nat) (copy : bool) (s : string) : string :=
  match s with
  | EmptyString => EmptyString
  | String c r =>
      match pending with
      | S k => if copy then String c (unquote_loop k copy r) else unquote_loop k copy r
      | O =>
          if Ascii.eqb c "\" then
            match r with
            | EmptyString => EmptyString
            | String "u" _ =>
                let '(out, n) := unicode_escape s in out +:+ unquote_loop n false r
            | String e _ => String (unescape e) (unquote_loop 1 false r)
            end
          else
            match utf8_tail s with
            | Some k => String c (unquote_loop k true r)
            | None => replacement +:+ unquote_loop 0 true r
            end
      end
  end.

Definition unquote (lit : string) : string := unquote_loop 0 true lit.

(** *** Storing a value: the fields of a struct *)

Definition lower (c : ascii) : ascii :=
  if between 65 90 c then byte (code c + 32) else c.

(** A key folded the way field names are matched: letters without their
    case, and the two letters outside ASCII that fold onto [s] and [k]. *)
Fixpoint fold (key : string) : string :=
  match key with
  | String "197" (String "191" r) => String "s" (fold r)
  | String "226" (String "132" (String "170" r)) => String "k" (fold r)
  | String c r => String (lower c) (fold r)
  | EmptyString => EmptyString
  end.

Definition describe (v : value) : string :=
  match v with
  | Null => "null"
  | Bool _ => "bool"
  | Number _ => "number"
  | Str _ => "string"
  | Array _ => "array"
  | Object _ => "object"
  end.

(** The text of an [*UnmarshalTypeError]; [field] is empty at the top level. *)
Definition type_error (what field type : string) : error :=
  "json: cannot unmarshal " +:+ what +:+ " into Go "
  +:+ (if String.eqb field EmptyString then "value"
       else "struct field " +:+ field)
  +:+ " of type " +:+ type.

Fixpoint decimal (acc : Z) (s : string) : option Z :=
  match s with
  | EmptyString => Some acc
  | String c r =>
      if is_digit c then decimal (10 * acc + Z.of_N (code c - 48)) r else None
  end.

(** [strconv.ParseInt(lit, 10, 64)] on a number literal. *)
Definition parse_int64 (lit : string) : option Z :=
  let n :=
    match lit with
    | String "-" r => Z.opp <$> decimal 0 r
    | _ => decimal 0 lit
    end in
  n ≫= fun z =>
    if ((- 2 ^ 63 <=? z) && (z <? 2 ^ 63))%Z then Some z else None.

(** Into an [*int] field (and, modelled from the spec, into a [*Time]: an
    epoch-millisecond number). *)
Definition store_int (field type : string) (v : value) : result (option Z) :=
  match v with
  | Null => Ok None
  | Number lit =>
      match parse_int64 lit with
      | Some z => Ok (Some z)
      | None => Err (type_error ("number " +:+ lit) field type)
      end
  | _ => Err (type_error (describe v) field type)
  end.

(** Into a [*string] field. *)
Definition store_string (field : string) (v : value) : result (option string) :=
  match v with
  | Null => Ok None
  | Str lit => Ok (Some (unquote lit))
  | _ => Err (type_error (describe v) field "string")
  end.

(** Into a [*json.RawMessage] field: the source text of the value. *)
Definition store_raw (raw : string) (v : value) : result (option string) :=
  match v with
  | Null => Ok None
  | _ => Ok (Some raw)
  end.

(** Into the elements of a [[]string], from index [i] on; a null leaves the
    element as it was. *)
Fixpoint store_elements (field : string) (cur : list string) (i : nat)
    (items : list value) : result (list string) :=
  match items with
  | [] => Ok []
  | item :: items' =>
      match
        match item with
        | Null => Ok (nth i cur EmptyString)
        | Str lit => Ok (unquote lit)
        | _ => Err (type_error (describe item) field "string")
        end
      with
      | Err e => Err e
      | Ok x =>
          match store_elements field cur (S i) items' with
          | Ok xs => Ok (x :: xs)
          | Err e => Err e
          end
      end
  end.

(** Into a [*[]string] field that holds [cur]. *)
Definition store_strings (field : string) (cur : option (list string)) (v : value)
  : result (option (list string)) :=
  match v with
  | Null => Ok None
  | Array items =>
      match store_elements field (default [] cur) 0 items with
      | Ok xs => Ok (Some xs)
      | Err e => Err e
      end
  | _ => Err (type_error (describe v) field "[]string")
  end.

End json.

(** ** Decoding a Message: [json.Unmarshal(data, m)] with [m *Message]

    The field table is the [json] struct tags of [Message]. *)

Definition bind {A B : Type} (r : result A) (k : A -> result B) : result B :=
  match r with
  | Ok a => k a
  | Err e => Err e
  end.

Module MessageDecoder.
Import Message.

(** One member of the object stored into the field its key names; a key
    that names no field is skipped. *)
Definition store_member (m : Message.t) (member : string * string * json.value)
  : result Message.t :=
  let '(key, raw, v) := member in
  let name := json.fold (json.unquote key) in
  let '(mk id flow sent user event content message tags uuid external app) := m in
  if String.eqb name "id" then
    bind (json.store_int "Message.id" "int" v) (fun x =>
    Ok (mk x flow sent user event content message tags uuid external app))
  else if String.eqb name "flow" then
    bind (json.store_string "Message.flow" v) (fun x =>
    Ok (mk id x sent user event content message tags uuid external app))
  else if String.eqb name "sent" then
    bind (json.store_int "Message.sent" "flowdock.Time" v) (fun x =>
    Ok (mk id flow x user event content message tags uuid external app))
  else if String.eqb name "user" then
    bind (json.store_string "Message.user" v) (fun x =>
    Ok (mk id flow sent x event content message tags uuid external app))
  else if String.eqb name "event" then
    bind (json.store_string "Message.event" v) (fun x =>
    Ok (mk id flow sent user x content message tags uuid external app))
  else if String.eqb name "content" then
    bind (json.store_raw raw v) (fun x =>
    Ok (mk id flow sent user event x message tags uuid external app))
  else if String.eqb name "message" then
    bind (json.store_int "Message.message" "int" v) (fun x =>
    Ok (mk id flow sent user event content x tags uuid external app))
  else if String.eqb name "tags" then
    bind (json.store_strings "Message.tags" tags v) (fun x =>
    Ok (mk id flow sent user event content message x uuid external app))
  else if String.eqb name "uuid" then
    bind (json.store_string "Message.uuid" v) (fun x =>
    Ok (mk id flow sent user event content message tags x external app))
  else if String.eqb name "external_user_name" then
    bind (json.store_string "Message.external_user_name" v) (fun x =>
    Ok (mk id flow sent user event content message tags uuid x app))
  else if String.eqb name "app" then
    bind (json.store_string "Message.app" v) (fun x =>
    Ok (mk id flow sent user event content message tags uuid external x))
  else Ok m.

Fixpoint store_members (m : Message.t) (members : list (string * string * json.value))
  : result Message.t :=
  match members with
  | [] => Ok m
  | member :: rest => bind (store_member m member) (fun m' => store_members m' rest)
  end.

(** A value stored into a [Message] struct that holds [m]. *)
Definition store (m : Message.t) (v : json.value) : result Message.t :=
  match v with
  | json.Object members => store_members m members
  | json.Null => Ok m
  | _ => Err (json.type_error (json.describe v) EmptyString "flowdock.Message")
  end.

(** The elements of a [[]Message]; the slice starts out nil, so every
    element is stored into a zero [Message]. *)
Fixpoint store_each (items : list json.value) : result (list Message.t) :=
  match items with
  | [] => Ok []
  | item :: rest =>
      bind (store Message.zero item) (fun m =>
      bind (store_each rest) (fun ms => Ok (m :: ms)))
  end.

End MessageDecoder.

(** Modelled from the spec: the Message Decoder, "structural JSON decoding
    into the Message shape", which "fails with a decode error when the payload
    is not valid JSON or cannot be mapped to the expected shape". It is
    [json.Unmarshal(data, m)] of the standard library, over the struct tags
    of [Message]. *)
Definition json_Unmarshal_Message (data : string) (m : Message.t) : result Message.t :=
  bind (json.parse data) (MessageDecoder.store m).

(** [json.Unmarshal(data, &messages)] with a nil [messages []Message]. *)
Definition json_Unmarshal_Messages (data : string) (messages : list Message.t)
  : result (list Message.t) :=
  bind (json.parse data) (fun v =>
    match v with
    | json.Array items => MessageDecoder.store_each items
    | json.Null => Ok messages
    | _ => Err (json.type_error (json.describe v) EmptyString "[]flowdock.Message")
    end).

(** ** Content: the variants and their resolution *)

(** The concrete content types are declared outside messages.go; the
    resolver only allocates one ([new(T)], [&T{}]) and hands it to the JSON
    decoder. *)
Class ContentTypes : Type := {
  MessageContent : Type;
  CommentContent : Type;
  VcsContent : Type;
  JsonContent : Type;
  new_MessageContent : MessageContent;
  new_CommentContent : CommentContent;
  new_VcsContent : VcsContent;
  new_JsonContent : JsonContent;
}.

(** A value of the interface type [Content]: nil, or a pointer to one of
    the variants. *)
Inductive Content `{ContentTypes} : Type :=
| nil_Content
| ptr_MessageContent (c : MessageContent)
| ptr_CommentContent (c : CommentContent)
| ptr_VcsContent (c : VcsContent)
| ptr_JsonContent (c : JsonContent).

(** [json.Unmarshal(data, &content)]: the decoder is given the address of
    the interface variable; it stores through the pointer the variable
    holds, or into the variable itself, and reports an error or nil. *)
Class ContentDecoder `{ContentTypes} : Type :=
  json_Unmarshal_Content : string -> Content -> Content * option error.

Section Resolver.
Context {types : ContentTypes} {decoder : ContentDecoder}.

(** The [switch] on the event kind: the variant allocated for it. *)
Definition new_content (event : string) : Content :=
  if String.eqb event "message" then ptr_MessageContent new_MessageContent
  else if String.eqb event "comment" then ptr_CommentContent new_CommentContent
  else if String.eqb event "vcs" then ptr_VcsContent new_VcsContent
  else ptr_JsonContent new_JsonContent.

(** [*m.Event] and [*m.RawContent] dereference pointers that may be nil. *)
Definition Message_Content (m : Message.t) : outcome Content :=
  match Message.Event m with
  | None => Panics NilDereference
  | Some event =>
      let content := new_content event in
      match Message.RawContent m with
      | None => Panics NilDereference
      | Some raw =>
          match json_Unmarshal_Content raw content with
          | (_, Some err) => Panics (PanicString err)
          | (content, None) => Returns content
          end
      end
  end.

End Resolver.

(** Modelled from the spec: the content shapes, which are declared outside
    messages.go. "MessageContent (plain chat text), CommentContent (text +
    reference to the message being commented on), VcsContent (structured
    commit/branch metadata), and a generic fallback JSON variant". *)
Module Shapes.

Record Comment : Type := mk_Comment {
  Title : option string;
  Text : option string;
}.

#[global] Instance types : ContentTypes := {|
  MessageContent := string;
  CommentContent := Comment;
  VcsContent := list (string * string * json.value);
  JsonContent := option json.value;
  new_MessageContent := EmptyString;
  new_CommentContent := mk_Comment None None;
  new_VcsContent := [];
  new_JsonContent := None;
|}.

Fixpoint store_comment (c : Comment) (members : list (string * string * json.value))
  : result Comment :=
  match members with
  | [] => Ok c
  | (key, _, v) :: rest =>
      let name := json.fold (json.unquote key) in
      if String.eqb name "title" then
        bind (json.store_string "CommentContent.title" v) (fun x =>
        store_comment (mk_Comment x (Text c)) rest)
      else if String.eqb name "text" then
        bind (json.store_string "CommentContent.text" v) (fun x =>
        store_comment (mk_Comment (Title c) x) rest)
      else store_comment c rest
  end.

Definition mismatch (v : json.value) (type : string) : option error :=
  Some (json.type_error (json.describe v) EmptyString type).

(** A null is stored into the interface variable itself, which becomes
    nil; any other value is stored through the pointer the variable holds. *)
Definition Unmarshal (data : string) (content : Content) : Content * option error :=
  match json.parse data with
  | Err e => (content, Some e)
  | Ok json.Null => (nil_Content, None)
  | Ok v =>
      match content with
      | nil_Content => (content, mismatch v "flowdock.Content")
      | ptr_MessageContent _ =>
          match v with
          | json.Str lit => (ptr_MessageContent (json.unquote lit), None)
          | _ => (content, mismatch v "flowdock.MessageContent")
          end
      | ptr_CommentContent c =>
          match v with
          | json.Object members =>
              match store_comment c members with
              | Ok c' => (ptr_CommentContent c', None)
              | Err e => (content, Some e)
              end
          | _ => (content, mismatch v "flowdock.CommentContent")
          end
      | ptr_VcsContent _ =>
          match v with
          | json.Object members => (ptr_VcsContent members, None)
          | _ => (content, mismatch v "flowdock.VcsContent")
          end
      | ptr_JsonContent _ => (ptr_JsonContent (Some v), None)
      end
  end.

#[global] Instance decoder : ContentDecoder := Unmarshal.

End Shapes.

(** ** Query parameters *)

(** Modelled from the spec: the reader of the [url] struct tags, which
    [addOptions] (declared outside messages.go) applies to an options bundle:
    "option fields are omitted when at their zero value", the omission "is
    per-field value-based", and tags are "comma-joined". The result is the
    parameters by key, as [url.Values]. *)
Module query.

Definition has_flag (flag : string) (f : url_field) : bool :=
  existsb (String.eqb flag) (tag_flags f).

Definition is_empty (v : field_value) : bool :=
  match v with
  | FString s => String.eqb s EmptyString
  | FInt n => (n =? 0)%Z
  | FStrings l => match l with [] => true | _ => false end
  end.

Fixpoint join (sep : string) (l : list string) : string :=
  match l with
  | [] => EmptyString
  | [x] => x
  | x :: rest => x +:+ sep +:+ join sep rest
  end.

Definition values_of (f : url_field) : list string :=
  match field_val f with
  | FString s => [s]
  | FInt n => [fmt_d n]
  | FStrings l => if has_flag "comma" f then [join "," l] else l
  end.

Definition add (vs : gmap string (list string)) (f : url_field)
  : gmap string (list string) :=
  if has_flag "omitempty" f && is_empty (field_val f) then vs
  else <[tag_name f := (default [] (vs !! tag_name f) ++ values_of f)%list]> vs.

Definition Values (fields : list url_field) : gmap string (list string) :=
  fold_left add fields ∅.

End query.

(** Modelled from the spec: [addOptions], declared outside messages.go,
    "merges an options bundle into query parameters". [with_query u vs] is
    the URL text [u] with [vs] as its query; a nil bundle leaves the URL as
    it is. *)
Definition spec_addOptions (with_query : string -> gmap string (list string) -> string)
    (s : string) (opt : option options) : string * option error :=
  match opt with
  | None => (s, None)
  | Some o => (with_query s (query.Values (url_fields o)), None)
  end.

(** ** The HTTP client *)

Record Response : Type := mk_Response {
  StatusCode : Z;
  Body : string;
}.

Definition api_error (resp : Response) : error :=
  Sprintf "%d %v" [AInt (StatusCode resp); AString (Body resp)].

(** Modelled from the spec: [Client.Do], declared outside messages.go. It
    "issues the HTTP call through the collaborator, and maps a successful
    response body into the Message shape or a plain acknowledgment"; "any
    non-2xx HTTP response is surfaced as an API error carrying the status and
    response body". [round_trip] is the transport. *)
Definition spec_Do {Request : Type} (round_trip : Request -> result Response)
    (req : Request) (t : target) : carrier t -> option Response * option error * carrier t :=
  match round_trip req with
  | Err e => fun v => (None, Some e, v)
  | Ok resp =>
      if ((200 <=? StatusCode resp) && (StatusCode resp <? 300))%Z then
        match t with
        | NoTarget => fun v => (Some resp, None, v)
        | IntoMessage => fun v =>
            match json_Unmarshal_Message (Body resp) v with
            | Ok m => (Some resp, None, m)
            | Err e => (Some resp, Some e, v)
            end
        | IntoMessages => fun v =>
            match json_Unmarshal_Messages (Body resp) v with
            | Ok ms => (Some resp, None, ms)
            | Err e => (Some resp, Some e, v)
            end
        end
      else fun v => (Some resp, Some (api_error resp), v)
  end.

Definition spec_Client {Request : Type}
    (new_request new_stream_request : string -> string -> result Request)
    (round_trip : Request -> result Response) : Client Request Response :=
  mk_Client Request Response new_request new_stream_request (spec_Do round_trip).

(** A message that has only an event kind and a content. *)
Definition with_content (event : option string) (raw : option string) : Message.t :=
  Message.mk None None None None event raw None None None None None.

(** ** The stream consumer

    The body of the goroutine that [Stream] starts. What [es.Read()] returns
    is either an event, of which only the [Data] is used, or an error. *)

Inductive read_result : Type :=
| ReadEvent (Data : string)
| ReadError (err : error).

(** What the goroutine does that others can observe. No statement of it
    closes the channel; [Close_ch] is there to say so. *)
Inductive task_event : Type :=
| Send (m : Message.t)
| LogPrintf (line : string)
| Close_es
| Close_ch.

(** Where the goroutine stands: in [es.Read()], in the send of a message, or
    returned. *)
Inductive task_state : Type :=
| Reading
| Sending (m : Message.t)
| Returned.

Section StreamTask.
Variable Unmarshal : string -> Message.t -> result Message.t.

(** One turn of the loop on what [es.Read()] returned: the log line and the
    deferred [es.Close()] of a return, or the message to send. *)
Definition on_read (r : read_result) : list task_event * task_state :=
  match r with
  | ReadError err =>
      ([LogPrintf (Sprintf "failed to read Stream eventsource: %v" [AString err]);
        Close_es], Returned)
  | ReadEvent data =>
      match Unmarshal data Message.zero with
      | Err err =>
          ([LogPrintf (Sprintf "bad JSON data from Stream eventsource: %v" [AString err]);
            Close_es], Returned)
      | Ok m => ([], Sending m)
      end
  end.

(** The run of the goroutine in which the successive calls of [es.Read()]
    return [reads] and a consumer receives every message sent: its events in
    order and where it stands after the last read. [None] when there is no
    such run, the goroutine having returned before the last of [reads]. *)
Fixpoint stream_task (reads : list read_result) : option (list task_event * task_state) :=
  match reads with
  | [] => Some ([], Reading)
  | r :: rest =>
      match on_read r with
      | (events, Sending m) =>
          match stream_task rest with
          | Some (events', st) => Some ((events ++ Send m :: events')%list, st)
          | None => None
          end
      | (events, st) =>
          match rest with
          | [] => Some (events, st)
          | _ :: _ => None
          end
      end
  end.

(** The messages sent, in order. *)
Fixpoint sent (events : list task_event) : list Message.t :=
  match events with
  | [] => []
  | Send m :: rest => m :: sent rest
  | _ :: rest => sent rest
  end.

(** The payloads that decode, decoded, in order. *)
Fixpoint decoded (frames : list string) : list Message.t :=
  match frames with
  | [] => []
  | data :: rest =>
      match Unmarshal data Message.zero with
      | Ok m => m :: decoded rest
      | Err _ => decoded rest
      end
  end.

Definition decodes (data : string) : bool :=
  match Unmarshal data Message.zero with
  | Ok _ => true
  | Err _ => false
  end.

(** *** The goroutine among its caller and its consumer

    The goroutine runs concurrently with the caller, who holds the handle
    [es] and may close it at any moment, and with the consumer of the
    channel, without whom a send does not complete. An interleaving is a
    sequence of moves. *)

Inductive move : Type :=
| Read (r : read_result)
| Receive
| CallerClose.

Inductive observed : Type :=
| Task (e : task_event)
| HandleClosed.

Record world : Type := mk_world {
  task : task_state;
  closed : bool;
}.

Definition start : world := mk_world Reading false.

(** Modelled from the spec: the event-stream client is outside the
    repository. "Closing/stopping the stream handle must cause the background
    task's next blocking read to unblock and the task to exit": on a closed
    handle [es.Read()] returns no event. *)
Definition may_return (w : world) (r : read_result) : bool :=
  match r with
  | ReadEvent _ => negb (closed w)
  | ReadError _ => true
  end.

Definition step (w : world) (mv : move) : option (world * list observed) :=
  match mv, task w with
  | CallerClose, _ => Some (mk_world (task w) true, [HandleClosed])
  | Read r, Reading =>
      if may_return w r then
        let '(events, st) := on_read r in
        Some (mk_world st (match st with Returned => true | _ => closed w end),
              map Task events)
      else None
  | Receive, Sending m => Some (mk_world Reading (closed w), [Task (Send m)])
  | _, _ => None
  end.

Fixpoint exec (w : world) (moves : list move) : option (world * list observed) :=
  match moves with
  | [] => Some (w, [])
  | mv :: rest =>
      match step w mv with
      | None => None
      | Some (w', out) =>
          match exec w' rest with
          | None => None
          | Some (w'', out') => Some (w'', (out ++ out')%list)
          end
      end
  end.

Fixpoint count_sends (trace : list observed) : nat :=
  match trace with
  | [] => 0
  | Task (Send _) :: rest => S (count_sends rest)
  | _ :: rest => count_sends rest
  end.


(** The moves of the run [stream_task] describes: each read, and the
    consumer's receive after each event that decodes. *)
Fixpoint schedule (reads : list read_result) : list move :=
  match reads with
  | [] => []
  | r :: rest =>
      match on_read r with
      | (_, Sending _) => Read r :: Receive :: schedule rest
      | _ => Read r :: schedule rest
      end
  end.

End StreamTask.

(** ** Stand-ins for the collaborators, for running the operations

    In the manner of the test server of the repository's tests: a request is
    its method and URL text, a URL with a control character in it does not
    parse, and the transport answers every request with one response. *)
Module Fake.

Definition Request : Type := string * string.

Definition control (c : ascii) : bool :=
  (json.code c <? 32)%N || (json.code c =? 127)%N.

Fixpoint has_control (s : string) : bool :=
  match s with
  | EmptyString => false
  | String c r => control c || has_control r
  end.

Definition new_request (method urlStr : string) : result Request :=
  if has_control urlStr then Err "net/url: invalid control character in URL"
  else Ok (method, urlStr).

Definition round_trip (resp : Response) (req : Request) : result Response := Ok resp.

Definition with_query (u : string) (vs : gmap string (list string)) : string :=
  u +:+ "?" +:+
  query.join "&" (map (fun kv => fst kv +:+ "=" +:+ query.join "," (snd kv)) (map_to_list vs)).

Definition client (resp : Response) : Client Request Response :=
  spec_Client new_request new_request (round_trip resp).

(** An [addOptions] whose encoding fails, as its [error] result allows. *)
Definition failing_addOptions (s : string) (opt : option options) : string * option error :=
  (s, Some "query: options cannot be encoded").

End Fake.

(** ** Measures on what an operation or the goroutine did *)

Definition is_Do {Request : Type} (c : call Request) : bool :=
  match c with call_Do _ _ => true | _ => false end.

Definition is_NewRequest {Request : Type} (c : call Request) : bool :=
  match c with call_NewRequest _ _ => true | _ => false end.

Definition count_calls {Request : Type} (p : call Request -> bool)
    (calls : list (call Request)) : nat :=
  length (List.filter p calls).

(** The keys of the [json] struct tags of [Message]. *)
Definition Message_keys : list string :=
  ["id"; "flow"; "sent"; "user"; "event"; "content"; "message"; "tags"; "uuid";
   "external_user_name"; "app"].

Section StreamMeasures.
Variable Unmarshal : string -> Message.t -> result Message.t.

(** A read after which the loop goes round again: an event that decodes. *)
Definition goes_on (r : read_result) : bool :=
  match r with
  | ReadEvent data => decodes Unmarshal data
  | ReadError _ => false
  end.

(** The reads of an interleaving that left the goroutine with a message. *)
Fixpoint decoded_reads (moves : list move) : nat :=
  match moves with
  | [] => 0
  | Read r :: rest => (if goes_on r then 1 else 0) + decoded_reads rest
  | _ :: rest => decoded_reads rest
  end.

Fixpoint count_reads (moves : list move) : nat :=
  match moves with
  | [] => 0
  | Read _ :: rest => S (count_reads rest)
  | _ :: rest => count_reads rest
  end.

Fixpoint count_receives (moves : list move) : nat :=
  match moves with
  | [] => 0
  | Receive :: rest => S (count_receives rest)
  | _ :: rest => count_receives rest
  end.

(** What the successive calls of [es.Read()] returned in an interleaving. *)
Fixpoint reads_of (moves : list move) : list read_result :=
  match moves with
  | [] => []
  | Read r :: rest => r :: reads_of rest
  | _ :: rest => reads_of rest
  end.

(** What the goroutine did in an interleaving. *)
Fixpoint task_events (trace : list observed) : list task_event :=
  match trace with
  | [] => []
  | Task e :: rest => e :: task_events rest
  | HandleClosed :: rest => task_events rest
  end.

(** How often the goroutine closed the event source. *)
Fixpoint count_closes (trace : list observed) : nat :=
  match trace with
  | [] => 0
  | Task Close_es :: rest => S (count_closes rest)
  | _ :: rest => count_closes rest
  end.

End StreamMeasures.

(** * Properties *)

(** ** The JSON scanner always answers

    The bound handed to [value_at] by [parse] is never exhausted: parsing
    fails only for a syntax error. *)

Module json_facts.
Import json.

Lemma map_parsed_Parsed {A B : Type} (f : A -> B) (p : parsed A) (b : B) (r : string) :
  map_parsed f p = Parsed b r -> exists a, p = Parsed a r /\ b = f a.
Proof. destruct p; simpl; intros [= <- <-] || discriminate. eauto. Qed.

Lemma map_parsed_fuel {A B : Type} (f : A -> B) (p : parsed A) :
  map_parsed f p = OutOfFuel -> p = OutOfFuel.
Proof. now destruct p. Qed.

Lemma skip_space_length (s : string) : String.length (skip_space s) <= String.length s.
Proof. induction s as [|c s IH]; simpl; [lia|]. destruct (is_space c); simpl; lia. Qed.

Lemma after_length (c : ascii) (s r : string) :
  after c s = Some r -> String.length s = S (String.length r).
Proof. destruct s as [|c' s]; simpl; [discriminate|]. now destruct (Ascii.eqb c' c); intros [= ->]. Qed.

Ltac split_matches :=
  repeat match goal with
  | H : context [match ?x with _ => _ end] |- _ => destruct x eqn:?; simpl in H; try discriminate
  | H : context [if ?x then _ else _] |- _ => destruct x eqn:?; simpl in H; try discriminate
  end.

Lemma string_body_consumes (n : nat) (s : string) :
  String.length s <= n ->
  string_body s <> OutOfFuel
  /\ forall lit r, string_body s = Parsed lit r -> String.length r < String.length s.
Proof.
  revert s. induction n as [|n IH]; intros s Hlen.
  - destruct s; [|simpl in Hlen; lia]. split; [discriminate | intros; discriminate].
  - destruct s as [|c r]; [split; [discriminate | intros; discriminate]|].
    simpl in Hlen. split.
    + intros H. simpl in H. split_matches;
        apply map_parsed_fuel in H;
        match goal with
        | H : string_body ?x = OutOfFuel |- _ =>
            apply (proj1 (IH x ltac:(simpl in *; lia))) in H; exact H
        end.
    + intros lit r0 H. simpl in H. split_matches;
        try (injection H as <- <-; simpl; lia);
        apply map_parsed_Parsed in H as (lit' & H & ->);
        match goal with
        | H : string_body ?x = Parsed _ _ |- _ =>
            apply (proj2 (IH x ltac:(simpl in *; lia))) in H; simpl in *; lia
        end.
Qed.

Lemma string_body_length (s lit r : string) :
  string_body s = Parsed lit r -> String.length r < String.length s.
Proof. apply (string_body_consumes (String.length s) s (le_n _)). Qed.

Lemma string_body_fuel (s : string) : string_body s <> OutOfFuel.
Proof. apply (string_body_consumes (String.length s) s (le_n _)). Qed.

Lemma digits_length (s ds r : string) :
  digits s = (ds, r) -> String.length r <= String.length s.
Proof.
  revert ds r. induction s as [|c s IH]; simpl; intros ds r H.
  - injection H as <- <-. simpl. lia.
  - destruct (is_digit c).
    + destruct (digits s) as [ds' rest]. injection H as <- <-.
      specialize (IH _ _ eq_refl). lia.
    + injection H as <- <-. simpl. lia.
Qed.

Lemma digits1_consumes (context s : string) :
  digits1 context s <> OutOfFuel
  /\ forall ds r, digits1 context s = Parsed ds r -> String.length r <= String.length s.
Proof.
  unfold digits1. destruct (digits s) as [ds rest] eqn:Hd.
  apply digits_length in Hd.
  destruct ds; [destruct rest|]; (split; [discriminate|]); intros ds' r H;
    try discriminate; now injection H as <- <-.
Qed.

Lemma number_exponent_consumes (lit s : string) :
  number_exponent lit s <> OutOfFuel
  /\ forall l r, number_exponent lit s = Parsed l r -> String.length r <= String.length s.
Proof.
  unfold number_exponent. destruct s as [|e r0]; [split; [discriminate|]|].
  - intros l r [= <- <-]. lia.
  - destruct (Ascii.eqb e "e" || Ascii.eqb e "E").
    + assert (Hr1 : forall sign r1,
                (match after "+" r0, after "-" r0 with
                 | Some r1, _ => ("+", r1)
                 | _, Some r1 => ("-", r1)
                 | _, _ => (EmptyString, r0)
                 end) = (sign, r1) -> String.length r1 <= String.length r0).
      { intros sign r1 H. destruct (after "+" r0) eqn:Hp; [|destruct (after "-" r0) eqn:Hm];
          injection H as <- <-; try lia;
          match goal with H : after _ _ = Some _ |- _ => apply after_length in H; lia end. }
      destruct (match after "+" r0, after "-" r0 with
                | Some r1, _ => ("+", r1)
                | _, Some r1 => ("-", r1)
                | _, _ => (EmptyString, r0)
                end) as [sign r1] eqn:Hs.
      specialize (Hr1 _ _ eq_refl).
      destruct (digits1_consumes "in exponent of numeric literal" r1) as [Hf Hl].
      split.
      * intros H. now apply map_parsed_fuel in H.
      * intros l r H. apply map_parsed_Parsed in H as (ds & H & ->).
        apply Hl in H. simpl. lia.
    + split; [discriminate|]. intros l r [= <- <-]. lia.
Qed.

Lemma number_fraction_consumes (lit s : string) :
  number_fraction lit s <> OutOfFuel
  /\ forall l r, number_fraction lit s = Parsed l r -> String.length r <= String.length s.
Proof.
  unfold number_fraction. destruct (after "." s) as [r0|] eqn:Ha.
  - apply after_length in Ha.
    destruct (digits1_consumes "after decimal point in numeric literal" r0) as [Hf Hl].
    destruct (digits1 "after decimal point in numeric literal" r0) as [ds rest| |] eqn:Hd.
    + specialize (Hl _ _ eq_refl).
      destruct (number_exponent_consumes (lit +:+ "." +:+ ds) rest) as [Hf' Hl'].
      split; [exact Hf'|]. intros l r H. apply Hl' in H. lia.
    + split; [discriminate | intros; discriminate].
    + contradiction.
  - apply number_exponent_consumes.
Qed.

Lemma number_consumes (s : string) :
  number s <> OutOfFuel
  /\ forall l r, number s = Parsed l r -> String.length r < String.length s.
Proof.
  unfold number.
  assert (Hs1 : forall sign s1,
            (match after "-" s with Some r => ("-", r) | None => (EmptyString, s) end)
            = (sign, s1) -> String.length s1 <= String.length s).
  { intros sign s1 H. destruct (after "-" s) eqn:Ha; injection H as <- <-; [|lia].
    apply after_length in Ha. lia. }
  destruct (match after "-" s with Some r => ("-", r) | None => (EmptyString, s) end)
    as [sign s1] eqn:Hs.
  specialize (Hs1 _ _ eq_refl).
  destruct s1 as [|c r0]; [split; [discriminate | intros; discriminate]|].
  simpl in Hs1. destruct (Ascii.eqb c "0").
  - destruct (number_fraction_consumes (sign +:+ "0") r0) as [Hf Hl].
    split; [exact Hf|]. intros l r H. apply Hl in H. lia.
  - destruct (is_digit c); [|split; [discriminate | intros; discriminate]].
    destruct (digits r0) as [ds rest] eqn:Hd. apply digits_length in Hd.
    destruct (number_fraction_consumes (sign +:+ String c ds) rest) as [Hf Hl].
    split; [exact Hf|]. intros l r H. apply Hl in H. lia.
Qed.

Lemma literal_consumes (name word s : string) :
  literal name word s <> OutOfFuel
  /\ forall u r, literal name word s = Parsed u r -> String.length r <= String.length s.
Proof.
  revert s. induction word as [|w word IH]; simpl; intros s.
  - split; [discriminate|]. intros u r [= <- <-]. lia.
  - destruct s as [|c r0]; [split; [discriminate | intros; discriminate]|].
    destruct (Ascii.eqb c w); [|split; [discriminate | intros; discriminate]].
    destruct (IH r0) as [Hf Hl]. split; [exact Hf|].
    intros u r H. apply Hl in H. simpl. lia.
Qed.

#[local] Arguments literal : simpl never.
#[local] Arguments number : simpl never.
#[local] Arguments string_body : simpl never.
#[local] Arguments map_parsed : simpl never.

(** A value, the members of an object and the elements of an array each
    take at least one character. *)
Lemma value_at_consumes (n : nat) :
  (forall s v r, value_at n s = Parsed v r -> String.length r < String.length s)
  /\ (forall s ms r, members n s = Parsed ms r -> String.length r < String.length s)
  /\ (forall s vs r, elements n s = Parsed vs r -> String.length r < String.length s).
Proof.
  induction n as [|n (IHv & IHm & IHe)]; [repeat split; intros; discriminate|].
  repeat split.
  - intros s v r H. simpl in H. pose proof (skip_space_length s) as Hs.
    destruct (skip_space s) as [|c r0] eqn:Hsk; [discriminate|]. simpl in Hs.
    pose proof (skip_space_length r0) as Hs0.
    split_matches;
      try match goal with
          | H : after _ _ = Some _ |- _ => apply after_length in H
          end;
      try (injection H as <- <-; lia);
      apply map_parsed_Parsed in H as (x & H & ->);
      first [ apply IHm in H | apply IHe in H | apply string_body_length in H
            | apply literal_consumes in H | apply number_consumes in H ];
      simpl in *; lia.
  - intros s ms r H. simpl in H. pose proof (skip_space_length s) as Hs.
    destruct (skip_space s) as [|c r0] eqn:Hsk; [discriminate|]. simpl in Hs.
    destruct (negb (Ascii.eqb c dquote)); [discriminate|].
    destruct (string_body r0) as [key r1| |] eqn:Hkey; try discriminate.
    apply string_body_length in Hkey. pose proof (skip_space_length r1) as Hs1.
    destruct (skip_space r1) as [|c1 r2] eqn:Hsk1; [discriminate|]. simpl in Hs1.
    destruct (negb (Ascii.eqb c1 ":")); [discriminate|].
    pose proof (skip_space_length r2) as Hs2.
    destruct (value_at n (skip_space r2)) as [v r3| |] eqn:Hv; try discriminate.
    apply IHv in Hv. pose proof (skip_space_length r3) as Hs3.
    destruct (skip_space r3) as [|c3 r4] eqn:Hsk3; [discriminate|]. simpl in Hs3.
    destruct (Ascii.eqb c3 "}"); [injection H as <- <-; lia|].
    destruct (Ascii.eqb c3 ","); [|discriminate].
    apply map_parsed_Parsed in H as (x & H & ->). apply IHm in H. lia.
  - intros s vs r H. simpl in H.
    destruct (value_at n s) as [v r1| |] eqn:Hv; try discriminate.
    apply IHv in Hv. pose proof (skip_space_length r1) as Hs1.
    destruct (skip_space r1) as [|c r2] eqn:Hsk1; [discriminate|]. simpl in Hs1.
    destruct (Ascii.eqb c "]"); [injection H as <- <-; lia|].
    destruct (Ascii.eqb c ","); [|discriminate].
    apply map_parsed_Parsed in H as (x & H & ->). apply IHe in H. lia.
Qed.

(** Twice the length of the input bounds the calls. *)
Lemma value_at_fuel (n : nat) :
  (forall s, 2 * String.length s < n -> value_at n s <> OutOfFuel)
  /\ (forall s, 2 * String.length s < n -> members n s <> OutOfFuel)
  /\ (forall s, 2 * String.length s + 1 < n -> elements n s <> OutOfFuel).
Proof.
  induction n as [|n (IHv & IHm & IHe)]; [repeat split; intros; lia|].
  repeat split.
  - intros s Hn H. simpl in H. pose proof (skip_space_length s) as Hs.
    destruct (skip_space s) as [|c r0] eqn:Hsk; [discriminate|]. simpl in Hs.
    split_matches; apply map_parsed_fuel in H;
      first [ apply IHm in H; [exact H | lia] | apply IHe in H; [exact H | lia]
            | now apply string_body_fuel in H | now apply literal_consumes in H
            | now apply number_consumes in H ].
  - intros s Hn H. simpl in H. pose proof (skip_space_length s) as Hs.
    destruct (skip_space s) as [|c r0] eqn:Hsk; [discriminate|]. simpl in Hs.
    destruct (negb (Ascii.eqb c dquote)); [discriminate|].
    destruct (string_body r0) as [key r1| |] eqn:Hkey;
      [|discriminate | now apply string_body_fuel in Hkey].
    apply string_body_length in Hkey. pose proof (skip_space_length r1) as Hs1.
    destruct (skip_space r1) as [|c1 r2] eqn:Hsk1; [discriminate|]. simpl in Hs1.
    destruct (negb (Ascii.eqb c1 ":")); [discriminate|].
    pose proof (skip_space_length r2) as Hs2.
    destruct (value_at n (skip_space r2)) as [v r3| |] eqn:Hv;
      [|discriminate | apply IHv in Hv; [exact Hv | lia]].
    apply value_at_consumes in Hv. pose proof (skip_space_length r3) as Hs3.
    destruct (skip_space r3) as [|c3 r4] eqn:Hsk3; [discriminate|]. simpl in Hs3.
    destruct (Ascii.eqb c3 "}"); [discriminate|].
    destruct (Ascii.eqb c3 ","); [|discriminate].
    apply map_parsed_fuel in H. apply IHm in H; [exact H | lia].
  - intros s Hn H. simpl in H.
    destruct (value_at n s) as [v r1| |] eqn:Hv;
      [|discriminate | apply IHv in Hv; [exact Hv | lia]].
    apply value_at_consumes in Hv. pose proof (skip_space_length r1) as Hs1.
    destruct (skip_space r1) as [|c r2] eqn:Hsk1; [discriminate|]. simpl in Hs1.
    destruct (Ascii.eqb c "]"); [discriminate|].
    destruct (Ascii.eqb c ","); [|discriminate].
    apply map_parsed_fuel in H. apply IHe in H; [exact H | lia].
Qed.

(** [parse] answers with a value or with a syntax error. *)
Lemma parse_has_fuel (data : string) :
  value_at (S (2 * String.length data)) data <> OutOfFuel.
Proof. apply value_at_fuel. lia. Qed.

End json_facts.

(** ** Recording calls *)

Lemma then_ret_l {Request A B : Type} (a : A) (k : A -> traced Request B) :
  then_ (ret a) k = k a.
Proof. unfold then_, ret. now destruct (k a). Qed.

Lemma then_ret_r {Request A : Type} (m : traced Request A) : then_ m ret = m.
Proof. unfold then_, ret. destruct m as [a calls]. now rewrite app_nil_r. Qed.

Lemma then_assoc {Request A B C : Type} (m : traced Request A)
    (k : A -> traced Request B) (h : B -> traced Request C) :
  then_ (then_ m k) h = then_ m (fun a => then_ (k a) h).
Proof.
  unfold then_. destruct m as [a calls]. destruct (k a) as [b calls'].
  destruct (h b) as [c calls'']. now rewrite app_assoc.
Qed.

(** ** Request paths *)

Lemma append_empty_r (s : string) : s +:+ EmptyString = s.
Proof. induction s as [|c s IH]; simpl; [reflexivity | now rewrite IH]. Qed.

Lemma Sprintf_stream_path (token org flow : string) :
  Sprintf "flows/%v/%v?access_token=%v" [AString org; AString flow; AString token]
  = "flows/" +:+ org +:+ "/" +:+ flow +:+ "?access_token=" +:+ token.
Proof. simpl. now rewrite append_empty_r. Qed.

Lemma Sprintf_list_path (org flow : string) :
  Sprintf "flows/%v/%v/messages" [AString org; AString flow]
  = "flows/" +:+ org +:+ "/" +:+ flow +:+ "/messages".
Proof. reflexivity. Qed.

Lemma Sprintf_get_path (org flowName : string) (id : Z) :
  Sprintf "flows/%v/%v/messages/%d" [AString org; AString flowName; AInt id]
  = "flows/" +:+ org +:+ "/" +:+ flowName +:+ "/messages/" +:+ fmt_d id.
Proof. simpl. now rewrite append_empty_r. Qed.

Lemma Sprintf_edit_path (org flowName : string) (id : Z) :
  Sprintf "/flows/%s/%s/messages/%d" [AString org; AString flowName; AInt id]
  = "/flows/" +:+ org +:+ "/" +:+ flowName +:+ "/messages/" +:+ fmt_d id.
Proof. simpl. now rewrite append_empty_r. Qed.

(** C10. For every organisation, flow name and message id, [Edit] and
    [Delete] build the path "/flows/{org}/{flow}/messages/{id}", with a
    leading slash, and [Get] builds "flows/{org}/{flow}/messages/{id}",
    without one; each hands its path to request construction ([Edit] to
    [addOptions], [Delete] and [Get] to [NewRequest]), and the path of [Edit]
    and [Delete] is never equal to the path of [Get]. *)
Theorem Edit_Delete_path_differs_from_Get {Request Response : Type}
    (client : Client Request Response)
    (addOptions : string -> option options -> string * option error)
    (org flowName : string) (id : Z) (opt : option MessagesEditOptions.t) :
  let slashed := "/flows/" +:+ org +:+ "/" +:+ flowName +:+ "/messages/" +:+ fmt_d id in
  let bare := "flows/" +:+ org +:+ "/" +:+ flowName +:+ "/messages/" +:+ fmt_d id in
  first_call (MessagesService_Edit client addOptions org flowName id opt)
    = Some (call_addOptions slashed (EditOptions <$> opt))
  /\ first_call (MessagesService_Delete client org flowName id)
    = Some (call_NewRequest "DELETE" slashed)
  /\ first_call (MessagesService_Get client org flowName id)
    = Some (call_NewRequest "GET" bare)
  /\ slashed <> bare.
Proof.
  intros slashed bare. repeat split.
  - unfold MessagesService_Edit, first_call, then_, s_addOptions.
    rewrite Sprintf_edit_path. fold slashed.
    destruct (addOptions slashed (EditOptions <$> opt)) as [u [err|]]; [reflexivity|].
    unfold s_NewRequest. destruct (NewRequest client "PUT" u) as [req|err]; [|reflexivity].
    unfold s_Do. destruct (Do client req NoTarget ()) as [[resp err] v]. reflexivity.
  - unfold MessagesService_Delete, first_call, then_, s_NewRequest.
    rewrite Sprintf_edit_path. fold slashed.
    destruct (NewRequest client "DELETE" slashed) as [req|err]; [|reflexivity].
    unfold s_Do. destruct (Do client req NoTarget ()) as [[resp err] v]. reflexivity.
  - unfold MessagesService_Get, first_call, then_, s_NewRequest.
    rewrite Sprintf_get_path. fold bare.
    destruct (NewRequest client "GET" bare) as [req|err]; [|reflexivity].
    unfold s_Do. destruct (Do client req IntoMessage Message.zero) as [[resp err] v].
    destruct err; reflexivity.
  - unfold slashed, bare. simpl. discriminate.
Qed.

(** ** Stream: the request and the retry interval *)

(** C9. Every call [Stream(token, org, flow)] asks [NewStreamRequest] for a
    GET of "flows/{org}/{flow}?access_token={token}"; when that request is
    built, the event source is created on it with a retry interval of three
    seconds, and nothing else is opened. *)
Theorem Stream_request_and_retry_interval {Request Response : Type}
    (client : Client Request Response) (token org flow : string) :
  let u := "flows/" +:+ org +:+ "/" +:+ flow +:+ "?access_token=" +:+ token in
  (3 * Second = 3000000000)%Z
  /\ match NewStreamRequest client "GET" u with
     | Ok req =>
         let es := eventsource_New req (3 * Second)%Z in
         MessagesService_Stream client token org flow
         = ((Some messageCh, Some es, None),
            [call_NewStreamRequest "GET" u; call_make_chan;
             call_eventsource_New req (3 * Second)%Z; call_go es])
     | Err err =>
         MessagesService_Stream client token org flow
         = ((None, None, Some err), [call_NewStreamRequest "GET" u])
     end.
Proof.
  intros u. split; [reflexivity|].
  unfold MessagesService_Stream, then_, s_NewStreamRequest.
  rewrite Sprintf_stream_path. fold u.
  destruct (NewStreamRequest client "GET" u) as [req|err]; reflexivity.
Qed.

(** ** Construction errors *)

(** [Stream] returns the error of [NewStreamRequest] and has then opened
    nothing. *)
Lemma Stream_construction_error {Request Response : Type}
    (client : Client Request Response) (token org flow : string) (err : error) :
  NewStreamRequest client "GET"
    (Sprintf "flows/%v/%v?access_token=%v" [AString org; AString flow; AString token])
  = Err err ->
  fst (MessagesService_Stream client token org flow) = (None, None, Some err)
  /\ existsb is_io (snd (MessagesService_Stream client token org flow)) = false.
Proof.
  intros Hreq. unfold MessagesService_Stream, then_, s_NewStreamRequest.
  rewrite Hreq. split; reflexivity.
Qed.

(** [Create] returns the error of [NewRequest] and has then done no I/O. *)
Lemma Create_NewRequest_error {Request Response : Type}
    (client : Client Request Response)
    (addOptions : string -> option options -> string * option error)
    (opt : option MessagesCreateOptions.t) (err : error) :
  NewRequest client "POST" (fst (addOptions "messages" (CreateOptions <$> opt))) = Err err ->
  fst (MessagesService_Create client addOptions opt) = (None, None, Some err)
  /\ existsb is_io (snd (MessagesService_Create client addOptions opt)) = false.
Proof.
  intros Hreq. unfold MessagesService_Create, then_, s_addOptions, s_NewRequest.
  destruct (addOptions "messages" (CreateOptions <$> opt)) as [u e].
  simpl in Hreq. rewrite Hreq. split; reflexivity.
Qed.

(** [List], unlike [Create], reads the error of [addOptions]: it returns it
    and builds no request. *)
Lemma List_addOptions_error {Request Response : Type}
    (client : Client Request Response)
    (addOptions : string -> option options -> string * option error)
    (org flow : string) (opt : option MessagesListOptions.t) (u : string) (err : error) :
  addOptions (Sprintf "flows/%v/%v/messages" [AString org; AString flow]) (ListOptions <$> opt)
  = (u, Some err) ->
  MessagesService_List client addOptions org flow opt
  = (([], None, Some err),
     [call_addOptions (Sprintf "flows/%v/%v/messages" [AString org; AString flow])
        (ListOptions <$> opt)]).
Proof.
  intros Hopt. unfold MessagesService_List, then_, s_addOptions.
  rewrite Hopt. reflexivity.
Qed.

(** [addOptions] as the spec has it reports no error: the fields of a
    bundle are strings, integers and lists of strings, and each of them has
    an encoding. *)
Lemma spec_addOptions_no_error (with_query : string -> gmap string (list string) -> string)
    (s : string) (opt : option options) :
  snd (spec_addOptions with_query s opt) = None.
Proof. now destruct opt. Qed.

(** C6. When the construction of the request fails, [Stream], [Create] and
    [CreateComment] return the error of the constructor at once.  [Stream]
    has then made the one call of [NewStreamRequest]: no channel, no event
    source, no goroutine.  [Create] and [CreateComment] have then made the
    call of [addOptions] and the one call of [NewRequest] on the URL it
    returned: no call of [Client.Do], and no second attempt.  This holds
    whatever [addOptions] returns.  The two operations do not read the error
    of [addOptions] (lines 166 and 187); [addOptions] as the spec has it
    reports none, so that the failure of [NewRequest] is the only way for
    their construction to fail. *)
Theorem Construction_error_before_io {Request Response : Type}
    (client : Client Request Response)
    (addOptions : string -> option options -> string * option error)
    (token org flow : string) (opt : option MessagesCreateOptions.t) :
  (forall e,
     NewStreamRequest client "GET"
       ("flows/" +:+ org +:+ "/" +:+ flow +:+ "?access_token=" +:+ token) = Err e ->
     MessagesService_Stream client token org flow
     = ((None, None, Some e),
        [call_NewStreamRequest "GET"
           ("flows/" +:+ org +:+ "/" +:+ flow +:+ "?access_token=" +:+ token)]))
  /\ (forall e,
        NewRequest client "POST" (fst (addOptions "messages" (CreateOptions <$> opt))) = Err e ->
        MessagesService_Create client addOptions opt
        = ((None, None, Some e),
           [call_addOptions "messages" (CreateOptions <$> opt);
            call_NewRequest "POST" (fst (addOptions "messages" (CreateOptions <$> opt)))]))
  /\ (forall e,
        NewRequest client "POST" (fst (addOptions "comments" (CreateOptions <$> opt))) = Err e ->
        MessagesService_CreateComment client addOptions opt
        = ((None, None, Some e),
           [call_addOptions "comments" (CreateOptions <$> opt);
            call_NewRequest "POST" (fst (addOptions "comments" (CreateOptions <$> opt)))]))
  /\ (forall with_query s o, snd (spec_addOptions with_query s o) = None).
Proof.
  split; [|split; [|split]].
  - intros e Hreq. unfold MessagesService_Stream, then_, s_NewStreamRequest.
    rewrite Sprintf_stream_path, Hreq. reflexivity.
  - intros e Hreq. unfold MessagesService_Create, then_, s_addOptions, s_NewRequest.
    destruct (addOptions "messages" (CreateOptions <$> opt)) as [u oe].
    cbn [fst] in Hreq |- *. rewrite Hreq. reflexivity.
  - intros e Hreq. unfold MessagesService_CreateComment, then_, s_addOptions, s_NewRequest.
    destruct (addOptions "comments" (CreateOptions <$> opt)) as [u oe].
    cbn [fst] in Hreq |- *. rewrite Hreq. reflexivity.
  - apply spec_addOptions_no_error.
Qed.

(** A line feed in the flow, or in the content that goes into the query
    unescaped, makes a URL that does not parse: the three operations return
    the error of the parser and have sent nothing. *)
Lemma Construction_error_before_io_witness :
  let client := Fake.client (mk_Response 200 "{}") in
  let addOptions := spec_addOptions Fake.with_query in
  let bad := String "010" "flow" in
  let opt :=
    Some (MessagesCreateOptions.mk EmptyString 0 EmptyString bad [] EmptyString EmptyString
            EmptyString EmptyString EmptyString) in
  let e := "net/url: invalid control character in URL" in
  MessagesService_Stream client "token" "org" bad
  = ((None, None, Some e),
     [call_NewStreamRequest "GET" ("flows/org/" +:+ bad +:+ "?access_token=token")])
  /\ MessagesService_Create client addOptions opt
     = ((None, None, Some e),
        [call_addOptions "messages" (CreateOptions <$> opt);
         call_NewRequest "POST" (fst (addOptions "messages" (CreateOptions <$> opt)))])
  /\ MessagesService_CreateComment client addOptions opt
     = ((None, None, Some e),
        [call_addOptions "comments" (CreateOptions <$> opt);
         call_NewRequest "POST" (fst (addOptions "comments" (CreateOptions <$> opt)))]).
Proof.
  intros client addOptions bad opt e.
  destruct (Construction_error_before_io client addOptions "token" "org" bad opt)
    as (HStream & HCreate & HComment & _).
  split; [|split].
  - apply HStream. reflexivity.
  - apply HCreate. vm_compute. reflexivity.
  - apply HComment. vm_compute. reflexivity.
Defined.

(** ** Query parameters *)

(** A field tagged [omitempty] that holds its zero value adds no key. *)
Lemma add_omitempty (vs : gmap string (list string)) (f : url_field) :
  query.has_flag "omitempty" f = true ->
  query.is_empty (field_val f) = true ->
  query.add vs f = vs.
Proof. intros Hflag Hempty. unfold query.add. now rewrite Hflag, Hempty. Qed.

(** A key stays absent when every field that carries it is tagged
    [omitempty] and holds its zero value. *)
Lemma Values_omits (fields : list url_field) (k : string) :
  (forall f, In f fields -> tag_name f = k ->
             query.has_flag "omitempty" f = true /\ query.is_empty (field_val f) = true) ->
  query.Values fields !! k = None.
Proof.
  unfold query.Values. generalize (lookup_empty (A := list string) k).
  generalize (∅ : gmap string (list string)).
  induction fields as [|f fields IH]; simpl; intros vs Hvs Hall; [exact Hvs|].
  apply IH; [|intros f' Hin; apply Hall; now right].
  unfold query.add.
  destruct (query.has_flag "omitempty" f && query.is_empty (field_val f)) eqn:Homit;
    [exact Hvs|].
  rewrite lookup_insert_ne; [exact Hvs|].
  intros Hk. destruct (Hall f (or_introl eq_refl) Hk) as [H1 H2].
  rewrite H1, H2 in Homit. discriminate.
Qed.

(** Whatever a listing asks for, an option left at its zero value has no
    key among the parameters. *)
Lemma List_omits_zero_valued (o : MessagesListOptions.t) (f : url_field) :
  In f (url_fields (ListOptions o)) ->
  query.is_empty (field_val f) = true ->
  query.Values (url_fields (ListOptions o)) !! tag_name f = None.
Proof.
  intros Hin Hempty. apply Values_omits. intros f' Hin' Hname.
  simpl in Hin, Hin'.
  destruct Hin as [<-|[<-|[<-|[<-|[<-|[<-|[<-|[]]]]]]]];
  destruct Hin' as [<-|[<-|[<-|[<-|[<-|[<-|[<-|[]]]]]]]];
  try discriminate Hname; (split; [reflexivity | exact Hempty]).
Qed.

(** C7. [List(org, flow, opt)] with [SinceID] 5, [UntilID] 10, [Limit] 3,
    [Tags] a and b, [TagMode] "and" and every other option at its zero value
    asks for a GET of "flows/{org}/{flow}/messages" with exactly the query
    parameters since_id=5, until_id=10, limit=3, tags=a,b and tag_mode=and:
    no key stands for a zero-valued option, in particular neither [event]
    nor [search]. *)
Theorem List_query_parameters {Request Response : Type}
    (client : Client Request Response)
    (with_query : string -> gmap string (list string) -> string)
    (org flow : string) :
  let opt := MessagesListOptions.mk EmptyString 3 5 10 ["a"; "b"] "and" EmptyString in
  let vs := query.Values (url_fields (ListOptions opt)) in
  vs = {[ "since_id" := ["5"]; "until_id" := ["10"]; "limit" := ["3"];
          "tags" := ["a,b"]; "tag_mode" := ["and"] ]}
  /\ vs !! "event" = None
  /\ vs !! "search" = None
  /\ firstn 2 (snd (MessagesService_List client (spec_addOptions with_query) org flow (Some opt)))
     = [call_addOptions ("flows/" +:+ org +:+ "/" +:+ flow +:+ "/messages")
          (Some (ListOptions opt));
        call_NewRequest "GET"
          (with_query ("flows/" +:+ org +:+ "/" +:+ flow +:+ "/messages") vs)].
Proof.
  intros opt vs.
  assert (Hvs : vs = {[ "since_id" := ["5"]; "until_id" := ["10"]; "limit" := ["3"];
                        "tags" := ["a,b"]; "tag_mode" := ["and"] ]})
    by (vm_compute; reflexivity).
  split; [exact Hvs|]. split; [rewrite Hvs; reflexivity|]. split; [rewrite Hvs; reflexivity|].
  unfold MessagesService_List, then_, s_addOptions, s_NewRequest, s_Do.
  rewrite Sprintf_list_path. simpl. fold opt. fold vs.
  destruct (NewRequest client "GET" _) as [req|err]; [|reflexivity].
  destruct (Do client req IntoMessages []) as [[resp [err|]] ms]; reflexivity.
Qed.

(** ** Create *)

(** An empty JSON object stores nothing: a [Message] decoded from it is as
    it was before. *)
Lemma Unmarshal_empty_object (m : Message.t) : json_Unmarshal_Message "{}" m = Ok m.
Proof. reflexivity. Qed.

(** The parameters of fields whose tags carry distinct names, looked up by
    key: the field of that name, if there is one and it is not omitted, adds
    its values to what the key had. *)
Lemma fold_add_lookup (fields : list url_field) (vs : gmap string (list string))
    (k : string) :
  List.NoDup (map tag_name fields) ->
  fold_left query.add fields vs !! k
  = match List.find (fun f => String.eqb (tag_name f) k) fields with
    | Some f =>
        if query.has_flag "omitempty" f && query.is_empty (field_val f) then vs !! k
        else Some (default [] (vs !! k) ++ query.values_of f)%list
    | None => vs !! k
    end.
Proof.
  revert vs. induction fields as [|f fields IH]; intros vs Hnd; [reflexivity|].
  inversion Hnd as [|name names Hnotin Hnd']; subst.
  cbn [fold_left List.find]. rewrite (IH _ Hnd').
  destruct (String.eqb (tag_name f) k) eqn:Hk.
  - apply String.eqb_eq in Hk. subst k.
    destruct (List.find (fun g => String.eqb (tag_name g) (tag_name f)) fields) as [g|] eqn:Hg.
    + apply List.find_some in Hg as [Hin Heq]. apply String.eqb_eq in Heq.
      exfalso. apply Hnotin. rewrite <- Heq. now apply in_map.
    + unfold query.add.
      destruct (query.has_flag "omitempty" f && query.is_empty (field_val f));
        [reflexivity|]. apply lookup_insert_eq.
  - assert (Hadd : query.add vs f !! k = vs !! k).
    { unfold query.add.
      destruct (query.has_flag "omitempty" f && query.is_empty (field_val f));
        [reflexivity|]. apply lookup_insert_ne. intros Heq.
      rewrite Heq, String.eqb_refl in Hk. discriminate. }
    now rewrite Hadd.
Qed.

(** The parameters of a [Create]: a key for each option that is not at its
    zero value, holding the value of the option, and no other key. *)
Lemma Create_parameters (opt : MessagesCreateOptions.t) :
  (forall f, In f (url_fields (CreateOptions opt)) ->
     query.Values (url_fields (CreateOptions opt)) !! tag_name f
     = if query.is_empty (field_val f) then None else Some (query.values_of f))
  /\ (forall k, ~ In k (map tag_name (url_fields (CreateOptions opt))) ->
        query.Values (url_fields (CreateOptions opt)) !! k = None).
Proof.
  assert (Hnd : List.NoDup (map tag_name (url_fields (CreateOptions opt)))).
  { cbn [url_fields map tag_name].
    repeat (constructor; [cbn [In]; intros H;
      repeat (destruct H as [H|H]; [discriminate H|]); exact H|]).
    constructor. }
  split.
  - intros f Hin. unfold query.Values. rewrite (fold_add_lookup _ _ _ Hnd), lookup_empty.
    cbn [url_fields In] in Hin |- *.
    repeat (destruct Hin as [<-|Hin];
      [cbn [List.find tag_name]; simpl String.eqb; cbv iota;
       unfold query.has_flag; cbn [tag_flags existsb]; simpl String.eqb;
       cbn [orb andb]; reflexivity|]).
    destruct Hin.
  - intros k Hk. unfold query.Values. rewrite (fold_add_lookup _ _ _ Hnd), lookup_empty.
    destruct (List.find _ _) as [f|] eqn:Hf; [|reflexivity].
    apply List.find_some in Hf as [Hin Heq]. apply String.eqb_eq in Heq.
    exfalso. apply Hk. rewrite <- Heq. now apply in_map.
Qed.

(** C8. A [Create] with options asks [addOptions] for the URL of "messages"
    with the options as parameters, each option that is not at its zero value
    under the name of its tag and no other key, POSTs to that URL, and, when
    the response has a 2xx status and a body that decodes, returns the
    [Message] decoded from the body, the response and a nil error.  With
    only [Content] "Howdy-Doo @Jackie #awesome" and [Subject] "a subject" set
    the parameters are exactly those two keys with those values; the body
    [{}] decodes to a [Message] with every field absent, and a body that
    sets every field to one that holds each of them. *)
Theorem Create_posts_content_and_subject {Request : Type}
    (new_request new_stream_request : string -> string -> result Request)
    (round_trip : Request -> result Response)
    (with_query : string -> gmap string (list string) -> string)
    (opt : MessagesCreateOptions.t) (req : Request) (resp : Response) (m : Message.t) :
  new_request "POST" (with_query "messages" (query.Values (url_fields (CreateOptions opt))))
  = Ok req ->
  round_trip req = Ok resp ->
  (200 <= StatusCode resp < 300)%Z ->
  json_Unmarshal_Message (Body resp) Message.zero = Ok m ->
  MessagesService_Create (spec_Client new_request new_stream_request round_trip)
    (spec_addOptions with_query) (Some opt)
  = ((Some m, Some resp, None),
     [call_addOptions "messages" (Some (CreateOptions opt));
      call_NewRequest "POST"
        (with_query "messages" (query.Values (url_fields (CreateOptions opt))));
      call_Do req IntoMessage])
  /\ (forall f, In f (url_fields (CreateOptions opt)) ->
        query.Values (url_fields (CreateOptions opt)) !! tag_name f
        = if query.is_empty (field_val f) then None else Some (query.values_of f))
  /\ (forall k, ~ In k (map tag_name (url_fields (CreateOptions opt))) ->
        query.Values (url_fields (CreateOptions opt)) !! k = None)
  /\ query.Values
       (url_fields
          (CreateOptions
             (MessagesCreateOptions.mk EmptyString 0 EmptyString "Howdy-Doo @Jackie #awesome"
                [] EmptyString EmptyString "a subject" EmptyString EmptyString)))
     = {[ "content" := ["Howdy-Doo @Jackie #awesome"]; "subject" := ["a subject"] ]}
  /\ json_Unmarshal_Message "{}" Message.zero = Ok Message.zero
  /\ json_Unmarshal_Message
       (json.dq ("{'id': 7, 'flow': 'f', 'sent': 1400000000000, 'user': 'u', "
                 +:+ "'event': 'message', 'content': 'hi', 'message': 3, "
                 +:+ "'tags': ['a', 'b'], 'uuid': 'x', 'external_user_name': 'n', "
                 +:+ "'app': 'chat'}"))
       Message.zero
     = Ok (Message.mk (Some 7%Z) (Some "f") (Some 1400000000000%Z) (Some "u")
             (Some "message") (Some (json.dq "'hi'")) (Some 3%Z) (Some ["a"; "b"])
             (Some "x") (Some "n") (Some "chat")).
Proof.
  intros Hreq Htrip Hstatus Hbody.
  split; [|split; [apply Create_parameters|split; [apply Create_parameters|]]].
  - unfold MessagesService_Create, then_, s_addOptions, s_NewRequest, s_Do.
    change (CreateOptions <$> Some opt) with (Some (CreateOptions opt)).
    unfold spec_addOptions. cbn [NewRequest Do spec_Client]. rewrite Hreq.
    unfold spec_Do. rewrite Htrip.
    replace ((200 <=? StatusCode resp)%Z && (StatusCode resp <? 300)%Z) with true
      by (symmetry; apply andb_true_iff; split; [apply Z.leb_le | apply Z.ltb_lt]; lia).
    rewrite Hbody. reflexivity.
  - repeat split; vm_compute; reflexivity.
Qed.

(** The call of the claim: the two options, and a server that answers 201
    and an empty object. *)
Lemma Create_posts_content_and_subject_witness :
  let opt :=
    MessagesCreateOptions.mk EmptyString 0 EmptyString "Howdy-Doo @Jackie #awesome" []
      EmptyString EmptyString "a subject" EmptyString EmptyString in
  let vs := query.Values (url_fields (CreateOptions opt)) in
  let resp := mk_Response 201 "{}" in
  vs = {[ "content" := ["Howdy-Doo @Jackie #awesome"]; "subject" := ["a subject"] ]}
  /\ MessagesService_Create (Fake.client resp) (spec_addOptions Fake.with_query) (Some opt)
     = ((Some Message.zero, Some resp, None),
        [call_addOptions "messages" (Some (CreateOptions opt));
         call_NewRequest "POST" (Fake.with_query "messages" vs);
         call_Do ("POST", Fake.with_query "messages" vs) IntoMessage]).
Proof.
  intros opt vs resp.
  refine (let T := Create_posts_content_and_subject Fake.new_request Fake.new_request
                     (Fake.round_trip resp) Fake.with_query opt
                     ("POST", Fake.with_query "messages" vs) resp Message.zero _ _ _ _ in
          conj (proj1 (proj2 (proj2 (proj2 T)))) (proj1 T)).
  - vm_compute. reflexivity.
  - reflexivity.
  - simpl. lia.
  - reflexivity.
Defined.

(** ** Content resolution *)

Lemma new_content_other {types : ContentTypes} (event : string) :
  event <> "message" -> event <> "comment" -> event <> "vcs" ->
  new_content event = ptr_JsonContent new_JsonContent.
Proof.
  intros H1 H2 H3. unfold new_content.
  apply String.eqb_neq in H1, H2, H3. now rewrite H1, H2, H3.
Qed.

(** What [Content()] does once the event kind and the raw content are there:
    it returns what the decoder stored, or panics with the decoder's error. *)
Lemma Content_decodes {types : ContentTypes} {decoder : ContentDecoder}
    (m : Message.t) (event raw : string) :
  Message.Event m = Some event ->
  Message.RawContent m = Some raw ->
  Message_Content m =
    match json_Unmarshal_Content raw (new_content event) with
    | (_, Some err) => Panics (PanicString err)
    | (content, None) => Returns content
    end.
Proof. intros Hev Hraw. unfold Message_Content. now rewrite Hev, Hraw. Qed.

(** C1, as the code has it. A [Message] without an event value, or without
    a raw content, makes [Content()] panic on the nil pointer. With an event
    value and a raw content
    that the decoder stores into the allocated variant, [Content()] returns
    that variant populated from the raw content: a [MessageContent] for
    "message", a [CommentContent] for "comment", a [VcsContent] for "vcs" and
    the generic JSON variant for any other event value. *)
Theorem Content_dispatches_on_event {types : ContentTypes} {decoder : ContentDecoder}
    (m : Message.t) :
  (Message.Event m = None -> Message_Content m = Panics NilDereference)
  /\ (forall event : string,
        Message.Event m = Some event -> Message.RawContent m = None ->
        Message_Content m = Panics NilDereference)
  /\ (forall event raw : string,
        Message.Event m = Some event ->
        Message.RawContent m = Some raw ->
        (event = "message" ->
         forall c, json_Unmarshal_Content raw (ptr_MessageContent new_MessageContent)
                   = (ptr_MessageContent c, None) ->
                   Message_Content m = Returns (ptr_MessageContent c))
        /\ (event = "comment" ->
            forall c, json_Unmarshal_Content raw (ptr_CommentContent new_CommentContent)
                      = (ptr_CommentContent c, None) ->
                      Message_Content m = Returns (ptr_CommentContent c))
        /\ (event = "vcs" ->
            forall c, json_Unmarshal_Content raw (ptr_VcsContent new_VcsContent)
                      = (ptr_VcsContent c, None) ->
                      Message_Content m = Returns (ptr_VcsContent c))
        /\ (event <> "message" -> event <> "comment" -> event <> "vcs" ->
            forall c, json_Unmarshal_Content raw (ptr_JsonContent new_JsonContent)
                      = (ptr_JsonContent c, None) ->
                      Message_Content m = Returns (ptr_JsonContent c))).
Proof.
  split; [|split].
  - intros Hev. unfold Message_Content. now rewrite Hev.
  - intros event Hev Hraw. unfold Message_Content. now rewrite Hev, Hraw.
  - intros event raw Hev Hraw. rewrite (Content_decodes m event raw Hev Hraw).
    repeat split.
    + intros -> c Hc. unfold new_content. simpl. now rewrite Hc.
    + intros -> c Hc. unfold new_content. simpl. now rewrite Hc.
    + intros -> c Hc. unfold new_content. simpl. now rewrite Hc.
    + intros H1 H2 H3 c Hc. rewrite (new_content_other event H1 H2 H3). now rewrite Hc.
Qed.

Lemma Content_dispatches_on_event_witness :
  Message_Content (decoder := Shapes.decoder)
    (with_content (Some "comment") (Some (json.dq "{'title': 'Lunch', 'text': 'I am in'}")))
  = Returns (ptr_CommentContent (Shapes.mk_Comment (Some "Lunch") (Some "I am in")))
  /\ Message_Content (decoder := Shapes.decoder)
       (with_content (Some "file") (Some (json.dq "{'path': 'a.txt'}")))
     = Returns (ptr_JsonContent
                  (Some (json.Object [("path", json.dq "'a.txt'", json.Str "a.txt")]))).
Proof.
  split.
  - apply (proj1 (proj2 (proj2 (proj2 (Content_dispatches_on_event (decoder := Shapes.decoder)
      (with_content (Some "comment") (Some (json.dq "{'title': 'Lunch', 'text': 'I am in'}")))))
      "comment" (json.dq "{'title': 'Lunch', 'text': 'I am in'}") eq_refl eq_refl)) eq_refl).
    reflexivity.
  - apply (proj2 (proj2 (proj2 (proj2 (proj2 (Content_dispatches_on_event
      (decoder := Shapes.decoder)
      (with_content (Some "file") (Some (json.dq "{'path': 'a.txt'}")))))
      "file" (json.dq "{'path': 'a.txt'}") eq_refl eq_refl)))); try discriminate.
    reflexivity.
Defined.

(** The raw content is an empty object, which the generic variant takes, but
    the [Message] has no event value: [Content()] yields no variant. *)
Lemma Content_missing_event_counterexample :
  Shapes.Unmarshal "{}" (ptr_JsonContent new_JsonContent)
  = (ptr_JsonContent (Some (json.Object [])), None)
  /\ Message_Content (decoder := Shapes.decoder) (with_content None (Some "{}"))
     = Panics NilDereference.
Proof. split; reflexivity. Qed.

(** C4, as the code has it. When the decoder fails on the raw content,
    [Content()] does not return: it panics with the text of the decoder's
    error. No variant, empty or not, reaches the caller. *)
Theorem Content_decode_failure_panics {types : ContentTypes} {decoder : ContentDecoder}
    (m : Message.t) (event raw : string) (content : Content) (err : error) :
  Message.Event m = Some event ->
  Message.RawContent m = Some raw ->
  json_Unmarshal_Content raw (new_content event) = (content, Some err) ->
  Message_Content m = Panics (PanicString err)
  /\ forall c, Message_Content m <> Returns c.
Proof.
  intros Hev Hraw Hdec. rewrite (Content_decodes m event raw Hev Hraw), Hdec.
  split; [reflexivity | discriminate].
Qed.

Lemma Content_decode_failure_panics_witness :
  Message_Content (decoder := Shapes.decoder)
    (with_content (Some "vcs") (Some (json.dq "['not', 'an', 'object']")))
  = Panics (PanicString
      "json: cannot unmarshal array into Go value of type flowdock.VcsContent")
  /\ forall c, Message_Content (decoder := Shapes.decoder)
       (with_content (Some "vcs") (Some (json.dq "['not', 'an', 'object']"))) <> Returns c.
Proof.
  apply (Content_decode_failure_panics (decoder := Shapes.decoder)
           (with_content (Some "vcs") (Some (json.dq "['not', 'an', 'object']")))
           "vcs" (json.dq "['not', 'an', 'object']")
           _ _ eq_refl eq_refl eq_refl).
Defined.

(** A truncated payload: the decoder reports an error, and the caller of
    [Content()] gets a panic, not an error value. *)
Lemma Content_decode_failure_counterexample :
  Shapes.Unmarshal "{" (ptr_MessageContent EmptyString)
  = (ptr_MessageContent EmptyString, Some "unexpected end of JSON input")
  /\ Message_Content (decoder := Shapes.decoder) (with_content (Some "message") (Some "{"))
     = Panics (PanicString "unexpected end of JSON input").
Proof. split; reflexivity. Qed.

(** ** The stream consumer *)

Section StreamProperties.
Variable Unmarshal : string -> Message.t -> result Message.t.


Lemma sent_app (xs ys : list task_event) : sent (xs ++ ys) = (sent xs ++ sent ys)%list.
Proof.
  induction xs as [|[m| | |] xs IH]; simpl; [reflexivity | now rewrite IH | exact IH ..].
Qed.

Lemma sent_map_Send (ms : list Message.t) : sent (map Send ms) = ms.
Proof. induction ms as [|m ms IH]; simpl; [reflexivity | now rewrite IH]. Qed.

(** A turn of the loop either ends the goroutine, with its two closing
    events, or leaves it with a message to send. *)
Lemma on_read_cases (r : read_result) :
  (exists line, on_read Unmarshal r = ([LogPrintf line; Close_es], Returned))
  \/ (exists data m, r = ReadEvent data /\ Unmarshal data Message.zero = Ok m
                     /\ on_read Unmarshal r = ([], Sending m)).
Proof.
  destruct r as [data|err]; simpl.
  - destruct (Unmarshal data Message.zero) as [m|e] eqn:Hm.
    + right. now exists data, m.
    + left. eexists. reflexivity.
  - left. eexists. reflexivity.
Qed.

(** Frames that all decode are all sent, in order, and the goroutine is back
    in [es.Read()]. *)
Lemma stream_task_all_decode (frames : list string) :
  forallb (decodes Unmarshal) frames = true ->
  stream_task Unmarshal (map ReadEvent frames) = Some (map Send (decoded Unmarshal frames), Reading)
  /\ Forall2 (fun data m => Unmarshal data Message.zero = Ok m) frames (decoded Unmarshal frames).
Proof.
  induction frames as [|data frames IH]; simpl; intros Hall.
  - split; [reflexivity | constructor].
  - apply andb_true_iff in Hall as [Hd Hall]. unfold decodes in Hd.
    destruct (Unmarshal data Message.zero) as [m|e] eqn:Hm; [|discriminate].
    destruct (IH Hall) as [-> HF]. split; [reflexivity | now constructor].
Qed.



(** A run whose reads are frames and then a read error. *)
Lemma stream_task_read_error (frames : list string) (err : error)
    (events : list task_event) (st : task_state) :
  stream_task Unmarshal (map ReadEvent frames ++ [ReadError err]) = Some (events, st) ->
  Forall2 (fun data m => Unmarshal data Message.zero = Ok m) frames (decoded Unmarshal frames)
  /\ events = (map Send (decoded Unmarshal frames)
               ++ [LogPrintf (Sprintf "failed to read Stream eventsource: %v" [AString err]);
                   Close_es])%list
  /\ st = Returned.
Proof.
  revert events st. induction frames as [|data frames IH]; simpl; intros events st Hrun.
  - injection Hrun as <- <-. repeat split. constructor.
  - destruct (Unmarshal data Message.zero) as [m|e] eqn:Hm.
    + destruct (stream_task Unmarshal (map ReadEvent frames ++ [ReadError err]))
        as [[events' st']|] eqn:Hrest; [|discriminate].
      injection Hrun as <- <-. destruct (IH _ _ eq_refl) as (HF & -> & ->).
      repeat split. now constructor.
    + destruct frames; discriminate.
Qed.

(** After a read error the goroutine has returned: no run reads further. *)
Lemma stream_task_ends_at_error (frames : list string) (err : error)
    (more : list read_result) :
  more <> [] ->
  stream_task Unmarshal (map ReadEvent frames ++ ReadError err :: more) = None.
Proof.
  intros Hmore. induction frames as [|data frames IH]; simpl.
  - destruct more; [contradiction | reflexivity].
  - destruct (Unmarshal data Message.zero) as [m|e].
    + now rewrite IH.
    + destruct frames; reflexivity.
Qed.

(** Frames that all decode are sent, in order, and the goroutine goes on
    with what is read after them. *)
Lemma stream_task_after_decoded (frames : list string) (rest : list read_result) :
  forallb (decodes Unmarshal) frames = true ->
  stream_task Unmarshal (map ReadEvent frames ++ rest)
  = match stream_task Unmarshal rest with
    | Some (events, st) => Some ((map Send (decoded Unmarshal frames) ++ events)%list, st)
    | None => None
    end.
Proof.
  induction frames as [|data frames IH]; simpl; intros Hall.
  - now destruct (stream_task Unmarshal rest) as [[events st]|].
  - apply andb_true_iff in Hall as [Hd Hall]. unfold decodes in Hd.
    destruct (Unmarshal data Message.zero) as [m|e] eqn:Hm; [|discriminate].
    rewrite (IH Hall). now destruct (stream_task Unmarshal rest) as [[events st]|].
Qed.

(** The frames of a run that reaches the read error all decode. *)
Lemma stream_task_read_error_decodes (frames : list string) (err : error)
    (events : list task_event) (st : task_state) :
  stream_task Unmarshal (map ReadEvent frames ++ [ReadError err]) = Some (events, st) ->
  forallb (decodes Unmarshal) frames = true.
Proof.
  revert events st. induction frames as [|data frames IH]; simpl; intros events st Hrun.
  - reflexivity.
  - unfold decodes at 1. destruct (Unmarshal data Message.zero) as [m|e] eqn:Hm.
    + destruct (stream_task Unmarshal (map ReadEvent frames ++ [ReadError err]))
        as [[events' st']|] eqn:Hrest; [|discriminate].
      exact (IH _ _ eq_refl).
    + destruct frames; discriminate.
Qed.

(** C3. When the event source yields K frames that decode and then a read
    error, the goroutine runs to its end: it sends K messages, one per frame
    and in the order of the frames, then logs the error and closes the event
    source, and has returned.  These are the only runs in which K frames are
    followed by a read error: in every such run the frames decode, exactly K
    messages are sent, the last send is followed only by the log line and the
    deferred close, and the channel is not closed.  No run goes on reading
    after the read error. *)
Theorem Stream_read_error_after_frames (frames : list string) (err : error) :
  (forallb (decodes Unmarshal) frames = true ->
   stream_task Unmarshal (map ReadEvent frames ++ [ReadError err])
   = Some ((map Send (decoded Unmarshal frames)
            ++ [LogPrintf (Sprintf "failed to read Stream eventsource: %v" [AString err]);
                Close_es])%list,
           Returned)
   /\ length (decoded Unmarshal frames) = length frames
   /\ Forall2 (fun data m => Unmarshal data Message.zero = Ok m) frames
        (decoded Unmarshal frames))
  /\ (forall events st,
        stream_task Unmarshal (map ReadEvent frames ++ [ReadError err]) = Some (events, st) ->
        forallb (decodes Unmarshal) frames = true
        /\ length (sent events) = length frames
        /\ Forall2 (fun data m => Unmarshal data Message.zero = Ok m) frames (sent events)
        /\ events = (map Send (sent events)
                     ++ [LogPrintf (Sprintf "failed to read Stream eventsource: %v"
                                      [AString err]);
                         Close_es])%list
        /\ st = Returned
        /\ ~ In Close_ch events)
  /\ (forall more, more <> [] ->
        stream_task Unmarshal (map ReadEvent frames ++ ReadError err :: more) = None).
Proof.
  split; [|split].
  - intros Hall. rewrite (stream_task_after_decoded frames [ReadError err] Hall).
    destruct (stream_task_all_decode frames Hall) as [_ HF].
    repeat split; [|exact HF]. symmetry. exact (Forall2_length _ _ _ HF).
  - intros events st Hrun.
    destruct (stream_task_read_error frames err events st Hrun) as (HF & Hev & Hst).
    assert (Hsent : sent events = decoded Unmarshal frames).
    { rewrite Hev, sent_app, sent_map_Send. simpl. apply app_nil_r. }
    rewrite Hsent. repeat split; try assumption.
    + exact (stream_task_read_error_decodes frames err events st Hrun).
    + symmetry. exact (Forall2_length _ _ _ HF).
    + rewrite Hev. intros Hin. apply in_app_or in Hin as [Hin|Hin].
      * apply in_map_iff in Hin as (m & Hm & _). discriminate.
      * simpl in Hin. destruct Hin as [H|[H|[]]]; discriminate.
  - intros more. apply stream_task_ends_at_error.
Qed.

(** *** Closing the handle while the goroutine runs *)


Lemma count_sends_app (xs ys : list observed) :
  count_sends (xs ++ ys) = count_sends xs + count_sends ys.
Proof.
  induction xs as [|[[m| | |]|] xs IH]; simpl; [reflexivity | now rewrite IH | exact IH ..].
Qed.




(** The run that [stream_task] describes is one of the interleavings: the
    one in which the caller leaves the handle alone and the consumer receives
    each message as it is sent. *)
Lemma exec_schedule (reads : list read_result) (events : list task_event) (st : task_state) :
  stream_task Unmarshal reads = Some (events, st) ->
  exec Unmarshal start (schedule Unmarshal reads)
  = Some (mk_world st (match st with Returned => true | _ => false end), map Task events).
Proof.
  unfold start. revert events st.
  induction reads as [|r reads IH]; intros events st Hrun.
  - simpl in *. now injection Hrun as <- <-.
  - cbn [stream_task] in Hrun. cbn [schedule].
    destruct (on_read_cases r) as [[line Hr]|(data & m & -> & Hm & Hr)];
      rewrite Hr in Hrun |- *.
    + destruct reads; [|discriminate]. injection Hrun as <- <-.
      cbn [schedule exec]. unfold step. cbn [task].
      replace (may_return (mk_world Reading false) r) with true by (now destruct r).
      now rewrite Hr.
    + destruct (stream_task Unmarshal reads) as [[events' st']|] eqn:Hrest; [|discriminate].
      injection Hrun as <- <-.
      cbn [exec]. unfold step at 1. cbn [task may_return closed negb]. rewrite Hr.
      cbn [exec]. unfold step at 1. cbn [task closed].
      rewrite (IH _ _ eq_refl). reflexivity.
Qed.

End StreamProperties.



Lemma Stream_read_error_after_frames_witness :
  let frames := ["{}"; json.dq "{'id': 7, 'event': 'message', 'content': 'hi'}"] in
  stream_task json_Unmarshal_Message (map ReadEvent frames ++ [ReadError "EOF"])
  = Some ([Send Message.zero;
           Send (Message.mk (Some 7%Z) None None None (Some "message") (Some (json.dq "'hi'"))
                   None None None None None);
           LogPrintf "failed to read Stream eventsource: EOF"; Close_es],
          Returned)
  /\ length (decoded json_Unmarshal_Message frames) = length frames
  /\ Forall2 (fun data m => json_Unmarshal_Message data Message.zero = Ok m) frames
       (decoded json_Unmarshal_Message frames).
Proof.
  intros frames.
  exact (proj1 (Stream_read_error_after_frames json_Unmarshal_Message frames "EOF") eq_refl).
Defined.



(** * Further properties of the operations *)

Lemma append_assoc (s1 s2 s3 : string) : (s1 +:+ s2) +:+ s3 = s1 +:+ s2 +:+ s3.
Proof. induction s1 as [|c s1 IH]; simpl; [reflexivity | now rewrite IH]. Qed.

Section Operations.
Context {Request Response : Type}.
Variable client : Client Request Response.
Variable addOptions : string -> option options -> string * option error.

(** X1. When [addOptions] reports an error, [List] and [Edit] return it at
    once: the call of [addOptions] is the only call they make, so no request
    is built and nothing is sent. *)
Theorem List_Edit_stop_at_addOptions_error (org flow : string) (id : Z)
    (lopt : option MessagesListOptions.t) (eopt : option MessagesEditOptions.t)
    (u u' : string) (e e' : error) :
  addOptions ("flows/" +:+ org +:+ "/" +:+ flow +:+ "/messages") (ListOptions <$> lopt)
  = (u, Some e) ->
  addOptions ("/flows/" +:+ org +:+ "/" +:+ flow +:+ "/messages/" +:+ fmt_d id)
    (EditOptions <$> eopt)
  = (u', Some e') ->
  MessagesService_List client addOptions org flow lopt
  = (([], None, Some e),
     [call_addOptions ("flows/" +:+ org +:+ "/" +:+ flow +:+ "/messages")
        (ListOptions <$> lopt)])
  /\ MessagesService_Edit client addOptions org flow id eopt
     = ((None, Some e'),
        [call_addOptions ("/flows/" +:+ org +:+ "/" +:+ flow +:+ "/messages/" +:+ fmt_d id)
           (EditOptions <$> eopt)]).
Proof.
  intros Hl He. split.
  - unfold MessagesService_List, then_, s_addOptions.
    rewrite Sprintf_list_path, Hl. reflexivity.
  - unfold MessagesService_Edit, then_, s_addOptions.
    rewrite Sprintf_edit_path, He. reflexivity.
Qed.

(** X2. What [Get], [Create], [CreateComment] and [List] return is never a
    result and an error together: the message is non-nil exactly when the
    error is nil, and [List] returns a nil slice with every error. *)
Theorem result_or_error (org flow : string) (id : Z)
    (copt : option MessagesCreateOptions.t) (lopt : option MessagesListOptions.t) :
  (match fst (MessagesService_Get client org flow id) with
   | (m, _, err) => is_Some m <-> err = None
   end)
  /\ (match fst (MessagesService_Create client addOptions copt) with
      | (m, _, err) => is_Some m <-> err = None
      end)
  /\ (match fst (MessagesService_CreateComment client addOptions copt) with
      | (m, _, err) => is_Some m <-> err = None
      end)
  /\ (match fst (MessagesService_List client addOptions org flow lopt) with
      | (ms, _, err) => err <> None -> ms = []
      end).
Proof.
  assert (Hyes : forall (m : Message.t), is_Some (Some m) <-> (None : option error) = None)
    by (intros m; split; [reflexivity | eauto]).
  assert (Hno : forall (e : error), is_Some (None : option Message.t) <-> Some e = None)
    by (intros e; split; [intros [x Hx]; discriminate | discriminate]).
  split; [|split; [|split]].
  1-3: unfold MessagesService_Get, MessagesService_Create, MessagesService_CreateComment,
         then_, s_addOptions, s_NewRequest, s_Do;
       repeat match goal with
       | |- context [addOptions ?a ?b] => destruct (addOptions a b) as [? ?]
       | |- context [NewRequest ?c ?a ?b] => destruct (NewRequest c a b)
       | |- context [Do ?c ?r ?t ?v] => destruct (Do c r t v) as [[? [?|]] ?]
       end; simpl; first [apply Hyes | apply Hno].
  unfold MessagesService_List, then_, s_addOptions, s_NewRequest, s_Do.
  repeat match goal with
  | |- context [addOptions ?a ?b] => destruct (addOptions a b) as [? [?|]]
  | |- context [NewRequest ?c ?a ?b] => destruct (NewRequest c a b)
  | |- context [Do ?c ?r ?t ?v] => destruct (Do c r t v) as [[? [?|]] ?]
  end; simpl; congruence.
Qed.

(** X3. No operation retries: each of [List], [Get], [Edit], [Delete],
    [Create] and [CreateComment] builds at most one request and makes at most
    one call of [Client.Do], and [Stream] makes none. *)
Theorem at_most_one_round_trip (token org flow : string) (id : Z)
    (lopt : option MessagesListOptions.t) (eopt : option MessagesEditOptions.t)
    (copt : option MessagesCreateOptions.t) :
  let once {A} (r : traced Request A) :=
    count_calls is_NewRequest (snd r) <= 1
    /\ count_calls is_Do (snd r) <= count_calls is_NewRequest (snd r) in
  once (MessagesService_List client addOptions org flow lopt)
  /\ once (MessagesService_Get client org flow id)
  /\ once (MessagesService_Edit client addOptions org flow id eopt)
  /\ once (MessagesService_Delete client org flow id)
  /\ once (MessagesService_Create client addOptions copt)
  /\ once (MessagesService_CreateComment client addOptions copt)
  /\ count_calls is_Do (snd (MessagesService_Stream client token org flow)) = 0.
Proof.
  intros once. unfold once.
  unfold MessagesService_List, MessagesService_Get, MessagesService_Edit,
    MessagesService_Delete, MessagesService_Create, MessagesService_CreateComment,
    MessagesService_Stream, then_, s_addOptions, s_NewRequest, s_NewStreamRequest, s_Do.
  repeat split;
    repeat match goal with
    | |- context [addOptions ?a ?b] => destruct (addOptions a b) as [? [?|]]
    | |- context [NewRequest ?c ?a ?b] => destruct (NewRequest c a b)
    | |- context [NewStreamRequest ?c ?a ?b] => destruct (NewStreamRequest c a b)
    | |- context [Do ?c ?r ?t ?v] => destruct (Do c r t v) as [[? [?|]] ?]
    end; unfold count_calls; simpl; lia.
Qed.

(** X4. The calls of each operation, in order. [Client.Do] is called only
    with the request that [NewRequest] has just returned, and with the target
    of the operation: a [*[]Message] for [List], a [*Message] for [Get],
    [Create] and [CreateComment], nil for [Edit] and [Delete]. The methods are
    GET for [List] and [Get], PUT for [Edit], DELETE for [Delete] and POST for
    [Create] and [CreateComment]. *)
Theorem calls_in_order (org flow : string) (id : Z)
    (lopt : option MessagesListOptions.t) (eopt : option MessagesEditOptions.t)
    (copt : option MessagesCreateOptions.t) :
  let send method u t :=
    call_NewRequest method u ::
    match NewRequest client method u with
    | Ok req => [call_Do req t]
    | Err _ => []
    end in
  let encode s opt method t :=
    call_addOptions s opt ::
    match addOptions s opt with
    | (_, Some _) => []
    | (u, None) => send method u t
    end in
  let bare := "flows/" +:+ org +:+ "/" +:+ flow +:+ "/messages" in
  let slashed := "/flows/" +:+ org +:+ "/" +:+ flow +:+ "/messages/" +:+ fmt_d id in
  snd (MessagesService_List client addOptions org flow lopt)
  = encode bare (ListOptions <$> lopt) "GET" IntoMessages
  /\ snd (MessagesService_Get client org flow id)
     = send "GET" (bare +:+ "/" +:+ fmt_d id) IntoMessage
  /\ snd (MessagesService_Edit client addOptions org flow id eopt)
     = encode slashed (EditOptions <$> eopt) "PUT" NoTarget
  /\ snd (MessagesService_Delete client org flow id) = send "DELETE" slashed NoTarget
  /\ snd (MessagesService_Create client addOptions copt)
     = call_addOptions "messages" (CreateOptions <$> copt)
       :: send "POST" (fst (addOptions "messages" (CreateOptions <$> copt))) IntoMessage
  /\ snd (MessagesService_CreateComment client addOptions copt)
     = call_addOptions "comments" (CreateOptions <$> copt)
       :: send "POST" (fst (addOptions "comments" (CreateOptions <$> copt))) IntoMessage.
Proof.
  intros send encode bare slashed.
  assert (Hget : bare +:+ "/" +:+ fmt_d id
                 = "flows/" +:+ org +:+ "/" +:+ flow +:+ "/messages/" +:+ fmt_d id).
  { unfold bare. rewrite !append_assoc. reflexivity. }
  subst encode send. cbv beta.
  unfold MessagesService_List, MessagesService_Get, MessagesService_Edit,
    MessagesService_Delete, MessagesService_Create, MessagesService_CreateComment,
    then_, s_addOptions, s_NewRequest, s_Do.
  rewrite Sprintf_list_path, Sprintf_get_path, !Sprintf_edit_path, Hget.
  fold bare. fold slashed.
  repeat split;
    repeat match goal with
    | |- context [addOptions ?a ?b] => destruct (addOptions a b) as [? [?|]]; cbn [fst]
    | |- context [NewRequest ?c ?a ?b] => destruct (NewRequest c a b)
    | |- context [Do ?c ?r ?t ?v] => destruct (Do c r t v) as [[? [?|]] ?]
    end; reflexivity.
Qed.

End Operations.

(** ** Success and the round trip *)

Section RoundTrip.
Context {Request Response : Type}.
Variable client : Client Request Response.
Variable addOptions : string -> option options -> string * option error.

(** X5. No operation reports success without the round trip: when the
    error returned is nil, [Client.Do] was called exactly once. And when
    [Client.Do] was not called, the response returned is nil and the error is
    not. *)
Theorem success_needs_round_trip (org flow : string) (id : Z)
    (lopt : option MessagesListOptions.t) (eopt : option MessagesEditOptions.t)
    (copt : option MessagesCreateOptions.t) :
  let sound (resp : option Response) (err : option error) (calls : list (call Request)) :=
    (err = None -> count_calls is_Do calls = 1)
    /\ (count_calls is_Do calls = 0 -> resp = None /\ err <> None) in
  (match MessagesService_List client addOptions org flow lopt with
   | ((_, resp, err), calls) => sound resp err calls
   end)
  /\ (match MessagesService_Get client org flow id with
      | ((_, resp, err), calls) => sound resp err calls
      end)
  /\ (match MessagesService_Edit client addOptions org flow id eopt with
      | ((resp, err), calls) => sound resp err calls
      end)
  /\ (match MessagesService_Delete client org flow id with
      | ((resp, err), calls) => sound resp err calls
      end)
  /\ (match MessagesService_Create client addOptions copt with
      | ((_, resp, err), calls) => sound resp err calls
      end)
  /\ (match MessagesService_CreateComment client addOptions copt with
      | ((_, resp, err), calls) => sound resp err calls
      end).
Proof.
  intros sound. subst sound. cbv beta.
  unfold MessagesService_List, MessagesService_Get, MessagesService_Edit,
    MessagesService_Delete, MessagesService_Create, MessagesService_CreateComment,
    then_, s_addOptions, s_NewRequest, s_Do.
  repeat apply conj;
    repeat match goal with
    | |- context [addOptions ?a ?b] => destruct (addOptions a b) as [? [?|]]
    | |- context [NewRequest ?c ?a ?b] => destruct (NewRequest c a b)
    | |- context [Do ?c ?r ?t ?v] => destruct (Do c r t v) as [[? [?|]] ?]
    end; unfold count_calls; simpl; split; intros; try discriminate; auto.
Qed.

End RoundTrip.

(** ** Paths *)

Lemma fmt_d_inj (a b : Z) : fmt_d a = fmt_d b -> a = b.
Proof.
  assert (Hnorm : forall z, Z.to_int z <> Decimal.Pos Decimal.Nil
                            /\ Z.to_int z <> Decimal.Neg Decimal.Nil).
  { intros [|p|p]; simpl; split; try discriminate; intros [= H];
      exact (DecimalPos.Unsigned.to_uint_nonnil p H). }
  unfold fmt_d. intros H. apply DecimalZ.to_int_inj.
  apply (f_equal NilZero.int_of_string) in H.
  rewrite !NilZero.isi in H by apply Hnorm. now injection H.
Qed.

Section Paths.
Context {Request Response : Type}.
Variable client : Client Request Response.
Variable addOptions : string -> option options -> string * option error.

(** X6. The organisation and the flow are put into the path as they are,
    with nothing escaped, so a slash in one of them moves the boundary
    between the two: with organisation "a/b" and flow "c" every operation
    does exactly what it does with organisation "a" and flow "b/c". *)
Theorem slash_moves_between_org_and_flow (a b c token : string) (id : Z)
    (lopt : option MessagesListOptions.t) (eopt : option MessagesEditOptions.t) :
  MessagesService_Stream client token (a +:+ "/" +:+ b) c
  = MessagesService_Stream client token a (b +:+ "/" +:+ c)
  /\ MessagesService_List client addOptions (a +:+ "/" +:+ b) c lopt
     = MessagesService_List client addOptions a (b +:+ "/" +:+ c) lopt
  /\ MessagesService_Get client (a +:+ "/" +:+ b) c id
     = MessagesService_Get client a (b +:+ "/" +:+ c) id
  /\ MessagesService_Edit client addOptions (a +:+ "/" +:+ b) c id eopt
     = MessagesService_Edit client addOptions a (b +:+ "/" +:+ c) id eopt
  /\ MessagesService_Delete client (a +:+ "/" +:+ b) c id
     = MessagesService_Delete client a (b +:+ "/" +:+ c) id.
Proof.
  unfold MessagesService_Stream, MessagesService_List, MessagesService_Get,
    MessagesService_Edit, MessagesService_Delete.
  rewrite !Sprintf_stream_path, !Sprintf_list_path, !Sprintf_get_path, !Sprintf_edit_path.
  rewrite !append_assoc. repeat split; reflexivity.
Qed.

(** X7. With the organisation and the flow fixed, the path that [Get],
    [Edit] and [Delete] build determines the message id: two ids give the same
    first call exactly when they are equal. *)
Theorem path_determines_id (org flow : string) (id id' : Z)
    (eopt : option MessagesEditOptions.t) :
  (first_call (MessagesService_Get client org flow id)
   = first_call (MessagesService_Get client org flow id') <-> id = id')
  /\ (first_call (MessagesService_Delete client org flow id)
      = first_call (MessagesService_Delete client org flow id') <-> id = id')
  /\ (first_call (MessagesService_Edit client addOptions org flow id eopt)
      = first_call (MessagesService_Edit client addOptions org flow id' eopt) <-> id = id').
Proof.
  assert (Hinj : forall p x y : string, p +:+ x = p +:+ y -> x = y).
  { intros p x y. induction p as [|ch p IH]; simpl; [trivial|]. intros [= H]. auto. }
  assert (Hget : exists p, forall i, first_call (MessagesService_Get client org flow i)
            = Some (call_NewRequest "GET" (p +:+ fmt_d i))).
  { exists (("flows/" +:+ org +:+ "/" +:+ flow) +:+ "/messages/"). intros i.
    unfold MessagesService_Get, first_call, then_, s_NewRequest.
    rewrite Sprintf_get_path, !append_assoc.
    destruct (NewRequest client "GET" _) as [req|err]; [|reflexivity].
    unfold s_Do. destruct (Do client req IntoMessage Message.zero) as [[resp [err|]] v];
      reflexivity. }
  assert (Hdel : exists p, forall i, first_call (MessagesService_Delete client org flow i)
            = Some (call_NewRequest "DELETE" (p +:+ fmt_d i))).
  { exists (("/flows/" +:+ org +:+ "/" +:+ flow) +:+ "/messages/"). intros i.
    unfold MessagesService_Delete, first_call, then_, s_NewRequest.
    rewrite Sprintf_edit_path, !append_assoc.
    destruct (NewRequest client "DELETE" _) as [req|err]; [|reflexivity].
    unfold s_Do. destruct (Do client req NoTarget ()) as [[resp err] v]. reflexivity. }
  assert (Hedit : exists p, forall i,
            first_call (MessagesService_Edit client addOptions org flow i eopt)
            = Some (call_addOptions (p +:+ fmt_d i) (EditOptions <$> eopt))).
  { exists (("/flows/" +:+ org +:+ "/" +:+ flow) +:+ "/messages/"). intros i.
    unfold MessagesService_Edit, first_call, then_, s_addOptions.
    rewrite Sprintf_edit_path, !append_assoc.
    destruct (addOptions _ (EditOptions <$> eopt)) as [u [err|]]; [reflexivity|].
    unfold s_NewRequest. destruct (NewRequest client "PUT" u) as [req|err]; [|reflexivity].
    unfold s_Do. destruct (Do client req NoTarget ()) as [[resp err] v]. reflexivity. }
  destruct Hget as [pg Hget], Hdel as [pd Hdel], Hedit as [pe Hedit].
  rewrite !Hget, !Hdel, !Hedit.
  repeat split; try (intros ->; reflexivity); intros [= H];
    apply Hinj in H; exact (fmt_d_inj _ _ H).
Qed.

End Paths.

(** ** When Content() returns *)

(** X8. [Content()] returns a content exactly when the [Message] has an
    event value and a raw content and the decoder stores the raw content into
    the variant allocated for the event without an error; what it returns is
    then what the decoder stored. It panics on a nil pointer exactly when the
    event value or the raw content is missing, and with the text of an error
    exactly when both are there and the decoder reports that error. *)
Theorem Content_returns_iff {types : ContentTypes} {decoder : ContentDecoder}
    (m : Message.t) (c : Content) (msg : string) :
  (Message_Content m = Returns c
   <-> exists event raw,
         Message.Event m = Some event /\ Message.RawContent m = Some raw
         /\ json_Unmarshal_Content raw (new_content event) = (c, None))
  /\ (Message_Content m = Panics NilDereference
      <-> Message.Event m = None \/ Message.RawContent m = None)
  /\ (Message_Content m = Panics (PanicString msg)
      <-> exists event raw c',
            Message.Event m = Some event /\ Message.RawContent m = Some raw
            /\ json_Unmarshal_Content raw (new_content event) = (c', Some msg)).
Proof.
  unfold Message_Content.
  destruct (Message.Event m) as [event|].
  2: { repeat split; try discriminate; auto;
       intros (? & ? & H); try discriminate; destruct H as (? & H & _); discriminate. }
  destruct (Message.RawContent m) as [raw|].
  2: { repeat split; try discriminate; auto;
       intros (? & ? & H); try discriminate;
       [destruct H as (_ & H & _) | destruct H as (? & _ & H & _)]; discriminate. }
  destruct (json_Unmarshal_Content raw (new_content event)) as [c0 [err|]] eqn:Hdec.
  - repeat split; try discriminate.
    + intros (e & r & [= <-] & [= <-] & H). congruence.
    + intros [H|H]; discriminate.
    + intros [= <-]. now exists event, raw, c0.
    + intros (e & r & c' & [= <-] & [= <-] & H). congruence.
  - repeat split; try discriminate.
    + intros [= <-]. now exists event, raw.
    + intros (e & r & [= <-] & [= <-] & H). congruence.
    + intros [H|H]; discriminate.
    + intros (e & r & c' & [= <-] & [= <-] & H). congruence.
Qed.

(** ** Runs of the stream goroutine *)

Section Runs.
Variable Unmarshal : string -> Message.t -> result Message.t.

Lemma on_read_goes_on (r : read_result) :
  (goes_on Unmarshal r = true /\ exists m, on_read Unmarshal r = ([], Sending m))
  \/ (goes_on Unmarshal r = false
      /\ exists line, on_read Unmarshal r = ([LogPrintf line; Close_es], Returned)).
Proof.
  destruct r as [data|err]; simpl; unfold decodes.
  - destruct (Unmarshal data Message.zero) as [m|e]; [left | right]; eauto.
  - right. eauto.
Qed.

(** X9. The events of a run have one of two shapes. As long as the goroutine
    reads, it has done nothing but send. Once it has returned, it has sent,
    then logged one line and closed the event source, in this order and
    once each; it never logs or closes and then sends. *)
Theorem stream_task_shape (reads : list read_result) (events : list task_event)
    (st : task_state) :
  stream_task Unmarshal reads = Some (events, st) ->
  (st = Reading /\ events = map Send (sent events))
  \/ (st = Returned
      /\ exists line, events = (map Send (sent events) ++ [LogPrintf line; Close_es])%list).
Proof.
  revert events st. induction reads as [|r reads IH]; intros events st Hrun.
  - injection Hrun as <- <-. now left.
  - cbn [stream_task] in Hrun.
    destruct (on_read_goes_on r) as [[_ [m Hr]]|[_ [line Hr]]]; rewrite Hr in Hrun.
    + destruct (stream_task Unmarshal reads) as [[events' st']|] eqn:Hrest; [|discriminate].
      injection Hrun as <- <-.
      destruct (IH _ _ eq_refl) as [[-> Hev]|[-> [line Hev]]].
      * left. split; [reflexivity|]. simpl. now rewrite <- Hev.
      * right. split; [reflexivity|]. exists line. simpl. now rewrite <- Hev.
    + destruct reads; [|discriminate]. injection Hrun as <- <-.
      right. split; [reflexivity|]. now exists line.
Qed.

(** X10. A history of reads is a run of the goroutine exactly when every
    read but the last returned an event that decodes: the goroutine reads
    again after such a read and after no other. *)
Theorem stream_task_is_run (reads : list read_result) :
  is_Some (stream_task Unmarshal reads)
  <-> forallb (goes_on Unmarshal) (removelast reads) = true.
Proof.
  induction reads as [|r reads IH]; [split; [reflexivity | eauto]|].
  cbn [stream_task].
  destruct (on_read_goes_on r) as [[Hgo [m Hr]]|[Hgo [line Hr]]]; rewrite Hr.
  - destruct reads as [|r' reads]; [split; [reflexivity | eauto]|].
    change (removelast (r :: r' :: reads)) with (r :: removelast (r' :: reads)).
    cbn [forallb]. rewrite Hgo. cbn [andb]. rewrite <- IH.
    destruct (stream_task Unmarshal (r' :: reads)) as [[events st]|].
    + split; eauto.
    + split; intros [x Hx]; discriminate.
  - destruct reads as [|r' reads]; [split; [reflexivity | eauto]|].
    change (removelast (r :: r' :: reads)) with (r :: removelast (r' :: reads)).
    cbn [forallb]. rewrite Hgo. split; [intros [x Hx]|]; discriminate.
Qed.

(** X11. Runs compose. After a run that left the goroutine reading, what it
    does with further reads is what it would do with them from the start:
    every frame is decoded into a fresh [Message], so nothing of an earlier
    frame is carried over. After a run that ended, no read follows. *)
Theorem stream_task_app (reads more : list read_result) (events : list task_event)
    (st : task_state) :
  stream_task Unmarshal reads = Some (events, st) ->
  (st = Reading ->
   stream_task Unmarshal (reads ++ more)
   = match stream_task Unmarshal more with
     | Some (events', st') => Some ((events ++ events')%list, st')
     | None => None
     end)
  /\ (st = Returned -> more <> [] -> stream_task Unmarshal (reads ++ more) = None).
Proof.
  revert events st. induction reads as [|r reads IH]; intros events st Hrun.
  - injection Hrun as <- <-. split; [|discriminate].
    intros _. simpl. now destruct (stream_task Unmarshal more) as [[? ?]|].
  - cbn [stream_task] in Hrun. simpl app. cbn [stream_task].
    destruct (on_read_goes_on r) as [[_ [m Hr]]|[_ [line Hr]]]; rewrite Hr in Hrun |- *.
    + destruct (stream_task Unmarshal reads) as [[events' st']|] eqn:Hrest; [|discriminate].
      injection Hrun as <- <-. destruct (IH _ _ eq_refl) as [Hreading Hreturned].
      split.
      * intros ->. rewrite (Hreading eq_refl).
        destruct (stream_task Unmarshal more) as [[? ?]|]; [|reflexivity].
        reflexivity.
      * intros -> Hmore. now rewrite (Hreturned eq_refl Hmore).
    + destruct reads; [|discriminate]. injection Hrun as <- <-.
      split; [discriminate|]. intros _ Hmore. simpl. now destruct more.
Qed.

(** X12. When the frames before it decode and a frame does not, the
    goroutine runs to its end: it sends one message for each frame before it,
    in order, then logs the line "bad JSON data from Stream eventsource: "
    followed by the text of the decoding error, closes the event source, and
    has returned. *)
Theorem stream_task_bad_frame (frames : list string) (bad : string) (e : error) :
  forallb (decodes Unmarshal) frames = true ->
  Unmarshal bad Message.zero = Err e ->
  stream_task Unmarshal (map ReadEvent frames ++ [ReadEvent bad])
  = Some ((map Send (decoded Unmarshal frames)
           ++ [LogPrintf ("bad JSON data from Stream eventsource: " +:+ e); Close_es])%list,
          Returned)
  /\ length (decoded Unmarshal frames) = length frames
  /\ Forall2 (fun data m => Unmarshal data Message.zero = Ok m) frames
       (decoded Unmarshal frames).
Proof.
  intros Hall Hbad. rewrite (stream_task_after_decoded Unmarshal frames [ReadEvent bad] Hall).
  destruct (stream_task_all_decode Unmarshal frames Hall) as [_ HF].
  repeat split; [| symmetry; exact (Forall2_length _ _ _ HF) | exact HF].
  cbn [stream_task on_read]. rewrite Hbad.
  replace (Sprintf "bad JSON data from Stream eventsource: %v" [AString e])
    with ("bad JSON data from Stream eventsource: " +:+ e)
    by (simpl; now rewrite append_empty_r).
  reflexivity.
Qed.

End Runs.

(** ** Interleavings of the goroutine with its caller and its consumer *)

Section Interleavings.
Variable Unmarshal : string -> Message.t -> result Message.t.

Lemma count_closes_app (xs ys : list observed) :
  count_closes (xs ++ ys) = count_closes xs + count_closes ys.
Proof.
  induction xs as [|[[m| | |]|] xs IH]; simpl; [reflexivity | try exact IH ..].
  now rewrite IH.
Qed.

(** One move, by what it is and by whether the read lets the loop go on. *)
Lemma step_goes_on (w w' : world) (mv : move) (out : list observed) :
  step Unmarshal w mv = Some (w', out) ->
  (mv = CallerClose /\ w' = mk_world (task w) true /\ out = [HandleClosed])
  \/ (exists m, mv = Receive /\ task w = Sending m
                /\ w' = mk_world Reading (closed w) /\ out = [Task (Send m)])
  \/ (exists r line, mv = Read r /\ goes_on Unmarshal r = false /\ task w = Reading
                     /\ w' = mk_world Returned true
                     /\ out = [Task (LogPrintf line); Task Close_es])
  \/ (exists r m, mv = Read r /\ goes_on Unmarshal r = true /\ task w = Reading
                  /\ w' = mk_world (Sending m) (closed w) /\ out = []).
Proof.
  unfold step. destruct mv as [r| |].
  - destruct (task w) eqn:Ht; try discriminate.
    destruct (may_return w r); [|discriminate].
    destruct (on_read_goes_on Unmarshal r) as [[Hgo [m Hr]]|[Hgo [line Hr]]]; rewrite Hr;
      intros [= <- <-].
    + right; right; right. now exists r, m.
    + right; right; left. now exists r, line.
  - destruct (task w) as [|m|] eqn:Ht; try discriminate. intros [= <- <-].
    right; left. now exists m.
  - intros [= <- <-]. now left.
Qed.

(** The counts of an interleaving from any state. *)
Lemma exec_counts (moves : list move) (w w' : world) (trace : list observed) :
  exec Unmarshal w moves = Some (w', trace) ->
  let pending (x : world) := match task x with Sending _ => 1 | _ => 0 end in
  let returned (x : world) := match task x with Returned => 1 | _ => 0 end in
  count_sends trace = count_receives moves
  /\ decoded_reads Unmarshal moves + pending w = count_sends trace + pending w'
  /\ count_reads moves + returned w = decoded_reads Unmarshal moves + returned w'
  /\ count_closes trace + returned w = returned w'
  /\ ~ In (Task Close_ch) trace.
Proof.
  intros Hexec pending returned. subst pending returned. cbv beta.
  revert w trace Hexec. induction moves as [|mv moves IH]; intros w trace Hexec.
  - injection Hexec as <- <-. simpl. repeat split; try lia; tauto.
  - cbn [exec] in Hexec.
    destruct (step Unmarshal w mv) as [[w1 out]|] eqn:Hstep; [|discriminate].
    destruct (exec Unmarshal w1 moves) as [[w2 out']|] eqn:Hrest; [|discriminate].
    injection Hexec as <- <-.
    destruct (IH _ _ Hrest) as (Hs & Hd & Hr & Hc & Hn).
    rewrite count_sends_app, count_closes_app, in_app_iff.
    apply step_goes_on in Hstep
      as [(-> & -> & ->)|[(m & -> & Ht & -> & ->)|[(r & line & -> & Hgo & Ht & -> & ->)
         |(r & m & -> & Hgo & Ht & -> & ->)]]];
      cbn [task count_sends count_closes count_receives count_reads decoded_reads In] in *;
      try rewrite Hgo; try rewrite Ht;
      (repeat split; [lia ..|]); intros [H|H]; try (exact (Hn H));
      repeat (destruct H as [H|H]; try discriminate); exact H.
Qed.

(** Once the goroutine has returned, only the caller moves. *)
Lemma exec_Returned (moves : list move) (w w' : world) (trace : list observed) :
  task w = Returned ->
  exec Unmarshal w moves = Some (w', trace) ->
  task w' = Returned /\ (closed w = true -> closed w' = true)
  /\ Forall (fun o => o = HandleClosed) trace
  /\ Forall (fun mv => mv = CallerClose) moves.
Proof.
  revert w trace. induction moves as [|mv moves IH]; intros w trace Ht Hexec.
  - injection Hexec as <- <-. repeat split; auto.
  - cbn [exec] in Hexec.
    destruct (step Unmarshal w mv) as [[w1 out]|] eqn:Hstep; [|discriminate].
    destruct (exec Unmarshal w1 moves) as [[w2 out']|] eqn:Hrest; [|discriminate].
    injection Hexec as <- <-.
    apply step_goes_on in Hstep
      as [(-> & -> & ->)|[(m & -> & Ht' & -> & ->)|[(r & line & -> & Hgo & Ht' & -> & ->)
         |(r & m & -> & Hgo & Ht' & -> & ->)]]]; try congruence.
    destruct (IH (mk_world (task w) true) _ Ht Hrest) as (Ht2 & Hc2 & Htr & Hmv).
    repeat split; auto; constructor; auto.
Qed.

(** X13. The goroutine does not read ahead of its consumer. In every
    interleaving from the start, each message sent was decoded from one read,
    at most one decoded message waits in the send, and the number of reads
    done is at most one more than the number of messages the consumer has
    received: the channel has no buffer, and the next [es.Read()] comes only
    after the send. *)
Theorem Stream_reads_wait_for_consumer (moves : list move) (w : world)
    (trace : list observed) :
  exec Unmarshal start moves = Some (w, trace) ->
  count_sends trace = count_receives moves
  /\ decoded_reads Unmarshal moves
     = count_sends trace + match task w with Sending _ => 1 | _ => 0 end
  /\ count_reads moves <= count_receives moves + 1.
Proof.
  intros Hexec. destruct (exec_counts _ _ _ _ Hexec) as (Hs & Hd & Hr & _ & _).
  cbv beta in Hd, Hr. cbn [start task] in Hd, Hr.
  destruct (task w); repeat split; lia.
Qed.

(** X14. In every interleaving from the start the goroutine never closes
    the message channel, and it closes the event source once if it has
    returned and not at all otherwise. When it has returned, the handle is
    closed, and the log line and the close of the event source are the last
    the goroutine did: only closes of the handle by the caller follow. *)
Theorem Stream_closes_event_source_once (moves : list move) (w : world)
    (trace : list observed) :
  exec Unmarshal start moves = Some (w, trace) ->
  ~ In (Task Close_ch) trace
  /\ count_closes trace = match task w with Returned => 1 | _ => 0 end
  /\ (task w = Returned ->
      closed w = true
      /\ exists before line after,
           trace = (before ++ Task (LogPrintf line) :: Task Close_es :: after)%list
           /\ Forall (fun o => o = HandleClosed) after).
Proof.
  intros Hexec. destruct (exec_counts _ _ _ _ Hexec) as (_ & _ & _ & Hc & Hn).
  cbv beta in Hc. cbn [start task] in Hc.
  split; [exact Hn|]. split; [lia|]. clear Hc Hn.
  assert (Hfrom : task start <> Returned) by discriminate.
  revert Hexec Hfrom. generalize start as w0. revert trace.
  induction moves as [|mv moves IH]; intros trace w0 Hexec Hfrom Hret.
  - injection Hexec as <- <-. contradiction.
  - cbn [exec] in Hexec.
    destruct (step Unmarshal w0 mv) as [[w1 out]|] eqn:Hstep; [|discriminate].
    destruct (exec Unmarshal w1 moves) as [[w2 out']|] eqn:Hrest; [|discriminate].
    injection Hexec as <- <-.
    apply step_goes_on in Hstep
      as [(-> & -> & ->)|[(m & -> & Ht & -> & ->)|[(r & line & -> & Hgo & Ht & -> & ->)
         |(r & m & -> & Hgo & Ht & -> & ->)]]].
    + destruct (IH _ _ Hrest Hfrom Hret) as (Hcl & before & line & after & -> & Hafter).
      split; [exact Hcl|]. now exists (HandleClosed :: before), line, after.
    + destruct (IH _ _ Hrest ltac:(discriminate) Hret)
        as (Hcl & before & line & after & -> & Hafter).
      split; [exact Hcl|]. now exists (Task (Send m) :: before), line, after.
    + destruct (exec_Returned _ (mk_world Returned true) _ _ eq_refl Hrest)
        as (_ & Hcl & Hafter & _).
      split; [exact (Hcl eq_refl)|]. now exists [], line, out'.
    + destruct (IH _ _ Hrest ltac:(discriminate) Hret)
        as (Hcl & before & line & after & -> & Hafter).
      split; [exact Hcl|]. now exists before, line, after.
Qed.

End Interleavings.

Section InterleavingsAndRuns.
Variable Unmarshal : string -> Message.t -> result Message.t.

Lemma exec_is_run_from (moves : list move) (w0 w : world) (trace : list observed) :
  exec Unmarshal w0 moves = Some (w, trace) ->
  let done := (task_events trace ++ match task w with Sending m => [Send m] | _ => [] end)%list in
  let st := match task w with Returned => Returned | _ => Reading end in
  match task w0 with
  | Reading => stream_task Unmarshal (reads_of moves) = Some (done, st)
  | Sending m0 =>
      exists events, stream_task Unmarshal (reads_of moves) = Some (events, st)
                     /\ done = Send m0 :: events
  | Returned => reads_of moves = [] /\ done = [] /\ task w = Returned
  end.
Proof.
  cbv zeta. revert w0 trace. induction moves as [|mv moves IH]; intros w0 trace Hexec.
  - injection Hexec as <- <-. simpl. destruct (task w0) as [|m0|]; eauto.
  - cbn [exec] in Hexec.
    destruct (step Unmarshal w0 mv) as [[w1 out]|] eqn:Hstep; [|discriminate].
    destruct (exec Unmarshal w1 moves) as [[w2 out']|] eqn:Hrest; [|discriminate].
    injection Hexec as <- <-. specialize (IH _ _ Hrest).
    unfold step in Hstep. destruct mv as [r| |].
    + destruct (task w0) eqn:Ht0; try discriminate.
      destruct (may_return w0 r); [|discriminate].
      cbn [reads_of stream_task].
      destruct (on_read_goes_on Unmarshal r) as [[_ [m Hr]]|[_ [line Hr]]];
        rewrite Hr in Hstep |- *; injection Hstep as <- <-; cbn [task] in IH.
      * destruct IH as (events & -> & Hdone). cbn [map app]. now rewrite Hdone.
      * destruct IH as (-> & Hdone & Hw). cbn [map app task_events].
        rewrite Hw in Hdone |- *. now rewrite Hdone.
    + destruct (task w0) as [|m0|] eqn:Ht0; try discriminate.
      injection Hstep as <- <-. cbn [task reads_of app task_events] in IH |- *.
      eexists. split; [exact IH | reflexivity].
    + injection Hstep as <- <-. cbn [task reads_of app task_events] in IH |- *.
      exact IH.
Qed.

(** X15. Whatever the caller and the consumer do, what the goroutine does
    is determined by what its reads return: in every interleaving from the
    start its events are those of the run on the same reads, but for the send
    it is still blocked in. *)
Theorem Stream_interleaving_is_run (moves : list move) (w : world) (trace : list observed) :
  exec Unmarshal start moves = Some (w, trace) ->
  stream_task Unmarshal (reads_of moves)
  = Some ((task_events trace ++ match task w with Sending m => [Send m] | _ => [] end)%list,
          match task w with Returned => Returned | _ => Reading end).
Proof.
  intros Hexec. exact (exec_is_run_from _ _ _ _ Hexec).
Qed.

End InterleavingsAndRuns.

(** ** The properties at concrete inputs *)

Lemma List_Edit_stop_at_addOptions_error_witness :
  let client := Fake.client (mk_Response 200 "{}") in
  MessagesService_List client Fake.failing_addOptions "org" "flow" None
  = (([], None, Some "query: options cannot be encoded"),
     [call_addOptions "flows/org/flow/messages" None])
  /\ MessagesService_Edit client Fake.failing_addOptions "org" "flow" 7 None
     = ((None, Some "query: options cannot be encoded"),
        [call_addOptions "/flows/org/flow/messages/7" None]).
Proof.
  exact (List_Edit_stop_at_addOptions_error (Fake.client (mk_Response 200 "{}"))
           Fake.failing_addOptions "org" "flow" 7 None None
           "flows/org/flow/messages" "/flows/org/flow/messages/7"
           "query: options cannot be encoded" "query: options cannot be encoded"
           eq_refl eq_refl).
Defined.

Lemma stream_task_shape_witness :
  let events :=
    [Send Message.zero; LogPrintf "failed to read Stream eventsource: EOF"; Close_es] in
  (Returned = Reading /\ events = map Send (sent events))
  \/ (Returned = Returned
      /\ exists line, events = (map Send (sent events) ++ [LogPrintf line; Close_es])%list).
Proof.
  intros events.
  exact (stream_task_shape json_Unmarshal_Message [ReadEvent "{}"; ReadError "EOF"]
           events Returned eq_refl).
Defined.

Lemma stream_task_app_witness :
  let reads := [ReadEvent "{}"] in
  let more := [ReadEvent "{}"; ReadError "EOF"] in
  (Reading = Reading ->
   stream_task json_Unmarshal_Message (reads ++ more)
   = match stream_task json_Unmarshal_Message more with
     | Some (events', st') => Some (([Send Message.zero] ++ events')%list, st')
     | None => None
     end)
  /\ (Reading = Returned -> more <> [] ->
      stream_task json_Unmarshal_Message (reads ++ more) = None).
Proof.
  intros reads more.
  exact (stream_task_app json_Unmarshal_Message reads more [Send Message.zero] Reading
           eq_refl).
Defined.

Lemma stream_task_bad_frame_witness :
  let frames := ["{}"; json.dq "{'id': 7}"] in
  let e := "invalid character 'o' in literal null (expecting 'u')" in
  stream_task json_Unmarshal_Message (map ReadEvent frames ++ [ReadEvent "nope"])
  = Some ([Send Message.zero;
           Send (Message.mk (Some 7%Z) None None None None None None None None None None);
           LogPrintf ("bad JSON data from Stream eventsource: " +:+ e); Close_es],
          Returned)
  /\ length (decoded json_Unmarshal_Message frames) = length frames
  /\ Forall2 (fun data m => json_Unmarshal_Message data Message.zero = Ok m) frames
       (decoded json_Unmarshal_Message frames).
Proof.
  intros frames e.
  exact (stream_task_bad_frame json_Unmarshal_Message frames "nope" e eq_refl eq_refl).
Defined.

Lemma Stream_reads_wait_for_consumer_witness :
  let moves := [Read (ReadEvent "{}"); Receive; Read (ReadEvent "{}")] in
  let trace := [Task (Send Message.zero)] in
  count_sends trace = count_receives moves
  /\ decoded_reads json_Unmarshal_Message moves = count_sends trace + 1
  /\ count_reads moves <= count_receives moves + 1.
Proof.
  intros moves trace.
  exact (Stream_reads_wait_for_consumer json_Unmarshal_Message moves
           (mk_world (Sending Message.zero) false) trace eq_refl).
Defined.

Lemma Stream_closes_event_source_once_witness :
  let trace :=
    [HandleClosed; Task (Send Message.zero);
     Task (LogPrintf "failed to read Stream eventsource: closed"); Task Close_es] in
  ~ In (Task Close_ch) trace
  /\ count_closes trace = 1
  /\ (Returned = Returned ->
      true = true
      /\ exists before line after,
           trace = (before ++ Task (LogPrintf line) :: Task Close_es :: after)%list
           /\ Forall (fun o => o = HandleClosed) after).
Proof.
  intros trace.
  exact (Stream_closes_event_source_once json_Unmarshal_Message
           [Read (ReadEvent "{}"); CallerClose; Receive; Read (ReadError "closed")]
           (mk_world Returned true) trace eq_refl).
Defined.

Lemma Stream_interleaving_is_run_witness :
  let moves := [Read (ReadEvent "{}"); Receive; Read (ReadEvent "{}"); CallerClose] in
  stream_task json_Unmarshal_Message (reads_of moves)
  = Some (([Send Message.zero] ++ [Send Message.zero])%list, Reading).
Proof.
  intros moves.
  exact (Stream_interleaving_is_run json_Unmarshal_Message moves
           (mk_world (Sending Message.zero) true)
           [Task (Send Message.zero); HandleClosed] eq_refl).
Defined.
